(** * ADBC NIF bridge: handle lifecycle and error marshalling

    A shallow embedding of [c_src/adbc_nif.cpp]: the eight exported NIF
    functions (new / set_option / init / release for the Database and the
    Connection handle), the error translator [nif_error_from_adbc_error]
    and the module's [on_load].

    The C++ code mutates host-tracked wrapper objects, a native heap and a
    native library with state of its own; all three are threaded through an
    explicit [world].  Every effect the properties speak about (a call into
    the native library, a free, a read of the native error struct, the
    error's release callback) is appended to the world's [trace]. *)

From Stdlib Require Import ZArith String List Ascii Lia.
From stdpp Require Import base gmap sets list strings.

Local Open Scope Z_scope.
Local Open Scope string_scope.
Local Open Scope list_scope.

(** ** Data *)

(** The two instantiations [NifRes<struct AdbcDatabase>] and
    [NifRes<struct AdbcConnection>]. *)
Inductive handle_kind := Database | Connection.

#[global] Instance handle_kind_eq_dec : EqDecision handle_kind.
Proof. solve_decision. Defined.

(** A pointer returned by [enif_alloc]; [None] is [nullptr]. *)
Abbreviation ptr := nat.

(** [AdbcStatusCode] and its success value. *)
Definition ADBC_STATUS_OK : Z := 0.

(** [struct AdbcError]: [message] is the C string the field points to,
    [vendor_code] an [int32_t], [sqlstate] the [char[5]] array and
    [release] the nullable callback (named by a number). *)
Record AdbcError := mkAdbcError {
  message : string;
  vendor_code : Z;
  sqlstate : string;
  release : option nat
}.

(** [ERL_NIF_TERM]: the host values the bridge reads and builds.  [Badarg]
    is what [enif_make_badarg] returns (the host raises its generic
    invalid-argument exception for it). *)
#[local] Set Warnings "-register-all".
Inductive term :=
| Atom (name : string)
| Int (i : Z)
| Binary (bytes : string)
| Tuple (elems : list term)
| Resource (id : nat)
| Badarg.

(** The resource objects a term refers to. *)
Fixpoint resources_of (t : term) : list nat :=
  match t with
  | Resource id => [id]
  | Tuple elems => flat_map resources_of elems
  | _ => []
  end.

(** A host-tracked wrapper [NifRes<T>]: its registered type, the [val]
    field and the host's reference count. *)
Record NifRes := mkNifRes {
  rtype : handle_kind;
  val : option ptr;
  refc : nat
}.

(** The entry points of the native library ([adbc.h]) with the handle
    pointers they are given. *)
Inductive native_call :=
| DatabaseNew (database : option ptr)
| DatabaseSetOption (database : option ptr) (key value : string)
| DatabaseInit (database : option ptr)
| DatabaseRelease (database : option ptr)
| ConnectionNew (connection : option ptr)
| ConnectionSetOption (connection : option ptr) (key value : string)
| ConnectionInit (connection database : option ptr)
| ConnectionRelease (connection : option ptr).

(** The handle pointers of a call. *)
Definition handles_of (c : native_call) : list (option ptr) :=
  match c with
  | DatabaseNew h | DatabaseInit h | DatabaseRelease h
  | ConnectionNew h | ConnectionRelease h => [h]
  | DatabaseSetOption h _ _ | ConnectionSetOption h _ _ => [h]
  | ConnectionInit h d => [h; d]
  end.

Inductive event :=
| EvNative (c : native_call) (code : Z)
| EvFree (p : ptr)
| EvReleaseResource (id : nat)
| EvErrorRead (e : AdbcError)
| EvErrorRelease (cb : nat) (e : AdbcError).

Definition is_native (ev : event) : bool :=
  match ev with EvNative _ _ => true | _ => false end.

Definition is_error_release (ev : event) : bool :=
  match ev with EvErrorRelease _ _ => true | _ => false end.

Definition is_error_read (ev : event) : bool :=
  match ev with EvErrorRead _ => true | _ => false end.

Definition is_free (ev : event) : bool :=
  match ev with EvFree _ => true | _ => false end.

(** What stops a NIF short of returning. *)
Inductive fault :=
| NullDereference    (* a write through [nullptr] *)
| DanglingPointer    (* a write through a freed block *)
| InvalidFree        (* [enif_free] of [nullptr] or of a freed block *)
| InvalidResource.   (* a wrapper pointer the host does not track *)

(** ** Host conventions ([nif_utils.hpp], [erl_nif.h]) *)

(** Modelled from the spec: [erlang::nif::error(env, term)] of the absent
    [nif_utils.hpp], the host's failure convention around a payload. *)
Definition nif_error (reason : term) : term := Tuple [Atom "error"; reason].

(** Modelled from the spec: [erlang::nif::ok(env)], the acknowledgement. *)
Definition nif_ok : term := Atom "ok".

(** Modelled from the spec: [erlang::nif::ok(env, term)]. *)
Definition nif_ok_with (t : term) : term := Tuple [Atom "ok"; t].

(** Modelled from the spec: [erlang::nif::make_binary(env, c_string)] of
    the absent [nif_utils.hpp]: the text as a host binary. *)
Definition make_binary (c_string : string) : term := Binary c_string.

(** Modelled from the spec: [erlang::nif::make_binary(env, data, len)]:
    [len] bytes starting at [data]. *)
Definition make_binary_n (data : string) (len : nat) : term :=
  Binary (substring 0 len data).

Definition enif_make_int (i : Z) : term := Int i.

Definition enif_make_tuple3 (a b c : term) : term := Tuple [a; b; c].

Definition enif_make_badarg : term := Badarg.

Section Bridge.

(** The native library: its private state and how a call changes it and
    answers (status code, and the error struct it fills in on failure).
    The source hands every call an uninitialised local [struct AdbcError]
    and reads it after any status other than [ADBC_STATUS_OK]; a library
    that fails without writing the struct is outside this model. *)
Variable driver : Type.
Variable adbc : native_call -> driver -> Z * AdbcError * driver.

(** [erlang::nif::get(env, term, std::string &)] of the absent
    [nif_utils.hpp]: the text of a host value, when it has one. *)
Variable nif_get : term -> option string.

(** The reason the absent [NifRes<T>::allocate_resource] reports when the
    host cannot allocate the wrapper. *)
Variable alloc_failure_reason : term.

(** ** The world *)

Record world := mkWorld {
  resources : gmap nat NifRes;   (* live host-tracked wrappers *)
  blocks : gset nat;             (* live [enif_alloc] blocks *)
  alloc_plan : list bool;        (* whether the next allocations succeed *)
  native : driver;               (* the native library's state *)
  trace : list event             (* effects so far, oldest first *)
}.

Definition with_resources (w : world) (r : gmap nat NifRes) : world :=
  mkWorld r (blocks w) (alloc_plan w) (native w) (trace w).
Definition with_blocks (w : world) (b : gset nat) : world :=
  mkWorld (resources w) b (alloc_plan w) (native w) (trace w).
Definition with_alloc_plan (w : world) (a : list bool) : world :=
  mkWorld (resources w) (blocks w) a (native w) (trace w).
Definition with_native (w : world) (d : driver) : world :=
  mkWorld (resources w) (blocks w) (alloc_plan w) d (trace w).
Definition with_trace (w : world) (t : list event) : world :=
  mkWorld (resources w) (blocks w) (alloc_plan w) (native w) t.

(** ** A state-and-fault monad for NIF bodies *)

Inductive outcome (A : Type) :=
| Done (a : A) (w : world)
| Crash (f : fault) (w : world).
Arguments Done {A} a w.
Arguments Crash {A} f w.

Definition nif (A : Type) : Type := world -> outcome A.

Definition ret {A} (a : A) : nif A := fun w => Done a w.

Definition bind {A B} (m : nif A) (k : A -> nif B) : nif B :=
  fun w => match m w with
           | Done a w' => k a w'
           | Crash f w' => Crash f w'
           end.

Notation "x <- c1 ;; c2" := (bind c1 (fun x => c2))
  (at level 100, c1 at next level, right associativity).
Notation "c1 ;; c2" := (bind c1 (fun _ => c2))
  (at level 100, right associativity).

Definition crash {A} (f : fault) : nif A := fun w => Crash f w.

Definition emit (ev : event) : nif unit :=
  fun w => Done tt (with_trace w (trace w ++ [ev])).

(** The world a run ends in, and the value it returns if it returns. *)
Definition final {A} (o : outcome A) : world :=
  match o with Done _ w => w | Crash _ w => w end.

Definition returned {A} (o : outcome A) : option A :=
  match o with Done a _ => Some a | Crash _ _ => None end.

(** ** Host primitives ([erl_nif.h]) *)

(** The next allocation's fate; an exhausted plan means memory is there. *)
Definition next_alloc : nif bool :=
  fun w => Done (hd true (alloc_plan w)) (with_alloc_plan w (tl (alloc_plan w))).

(** [enif_alloc_resource(type, size)]: a fresh wrapper holding one
    reference, or [nullptr]. *)
Definition enif_alloc_resource (k : handle_kind) : nif (option nat) :=
  ok <- next_alloc ;;
  if ok : bool then
    fun w =>
      let id := fresh (dom (resources w)) in
      Done (Some id) (with_resources w (<[id := mkNifRes k None 1]> (resources w)))
  else ret None.

(** [enif_alloc(size)]: a fresh block, or [nullptr]. *)
Definition enif_alloc : nif (option ptr) :=
  ok <- next_alloc ;;
  if ok : bool then
    fun w =>
      let p := fresh (blocks w) in
      Done (Some p) (with_blocks w ({[p]} ∪ blocks w))
  else ret None.

(** [memset(p, 0, size)]: writes through [p]. *)
Definition memset (p : option ptr) : nif unit :=
  fun w => match p with
           | None => Crash NullDereference w
           | Some a => if decide (a ∈ blocks w) then Done tt w
                       else Crash DanglingPointer w
           end.

(** [enif_free(p)]. *)
Definition enif_free (p : option ptr) : nif unit :=
  match p with
  | None => crash InvalidFree
  | Some a =>
      fun w => if decide (a ∈ blocks w)
               then emit (EvFree a) (with_blocks w (blocks w ∖ {[a]}))
               else Crash InvalidFree w
  end.

(** [res->val], read through a wrapper pointer. *)
Definition read_val (res : nat) : nif (option ptr) :=
  fun w => match resources w !! res with
           | Some r => Done (val r) w
           | None => Crash InvalidResource w
           end.

(** [res->val = v]. *)
Definition write_val (res : nat) (v : option ptr) : nif unit :=
  fun w => match resources w !! res with
           | Some r => Done tt (with_resources w
                         (<[res := mkNifRes (rtype r) v (refc r)]> (resources w)))
           | None => Crash InvalidResource w
           end.

(** [enif_release_resource(res)]: drops one reference.  A wrapper left
    without references is the host's to destruct ([destruct_resource] below)
    and to free, at a time of the host's choosing. *)
Definition enif_release_resource (res : nat) : nif unit :=
  fun w => match resources w !! res with
           | Some r => emit (EvReleaseResource res) (with_resources w
                         (<[res := mkNifRes (rtype r) (val r) (pred (refc r))]> (resources w)))
           | None => Crash InvalidResource w
           end.

(** [enif_make_resource(env, res)]: the term holds a reference of its own. *)
Definition enif_make_resource (res : nat) : nif term :=
  fun w => match resources w !! res with
           | Some r => Done (Resource res) (with_resources w
                         (<[res := mkNifRes (rtype r) (val r) (S (refc r))]> (resources w)))
           | None => Crash InvalidResource w
           end.

(** ** The native library ([adbc.h]) *)

(** A call into the native library: the library's state moves on and the
    call is recorded with the status it answered. *)
Definition native_invoke (c : native_call) : nif (Z * AdbcError) :=
  fun w =>
    let '(code, adbc_error, d) := adbc c (native w) in
    Done (code, adbc_error)
         (with_trace (with_native w d) (trace w ++ [EvNative c code])).

Definition AdbcDatabaseNew (database : option ptr) :=
  native_invoke (DatabaseNew database).
Definition AdbcDatabaseSetOption (database : option ptr) (key value : string) :=
  native_invoke (DatabaseSetOption database key value).
Definition AdbcDatabaseInit (database : option ptr) :=
  native_invoke (DatabaseInit database).
Definition AdbcDatabaseRelease (database : option ptr) :=
  native_invoke (DatabaseRelease database).
Definition AdbcConnectionNew (connection : option ptr) :=
  native_invoke (ConnectionNew connection).
Definition AdbcConnectionSetOption (connection : option ptr) (key value : string) :=
  native_invoke (ConnectionSetOption connection key value).
Definition AdbcConnectionInit (connection database : option ptr) :=
  native_invoke (ConnectionInit connection database).
Definition AdbcConnectionRelease (connection : option ptr) :=
  native_invoke (ConnectionRelease connection).

(** [adbc_error.release(&adbc_error)], guarded by
    [adbc_error.release != nullptr]. *)
Definition release_adbc_error (adbc_error : AdbcError) : nif unit :=
  match release adbc_error with
  | Some cb => emit (EvErrorRelease cb adbc_error)
  | None => ret tt
  end.

(** ** The wrapper template ([adbc_nif_resource.hpp]) *)

(** Modelled from the spec: [NifRes<T>::allocate_resource] of the absent
    [adbc_nif_resource.hpp]; it yields the new wrapper, created empty, or
    [nullptr] together with an error result. *)
Definition allocate_resource (k : handle_kind) : nif (term + nat) :=
  r <- enif_alloc_resource k ;;
  match r with
  | None => ret (inl (nif_error alloc_failure_reason))
  | Some res => ret (inr res)
  end.

(** Modelled from the spec: [NifRes<T>::get_resource] of the absent
    [adbc_nif_resource.hpp]; it resolves the wrapper from the opaque
    reference and requires a valid native handle; a wrong reference type
    and an already released handle are both the generic invalid-argument
    signal. *)
Definition get_resource (k : handle_kind) (t : term) (w : world) : term + nat :=
  match t with
  | Resource res =>
      match resources w !! res with
      | Some r =>
          if decide (rtype r = k) then
            match val r with
            | Some _ => inr res
            | None => inl enif_make_badarg
            end
          else inl enif_make_badarg
      | None => inl enif_make_badarg
      end
  | _ => inl enif_make_badarg
  end.

(** Modelled from the spec: [NifRes<T>::destruct_resource] of the absent
    [adbc_nif_resource.hpp], the destructor the collector runs on an
    unreachable wrapper: it frees the native handle if still non-null. *)
Definition destruct_resource (res : nat) : nif unit :=
  v <- read_val res ;;
  match v with
  | Some _ => enif_free v ;; write_val res None
  | None => ret tt
  end.

(** ** The error translator *)

Definition nif_error_from_adbc_error (error : AdbcError) : nif term :=
  emit (EvErrorRead error) ;;
  ret (nif_error (enif_make_tuple3
        (make_binary (message error))
        (enif_make_int (vendor_code error))
        (make_binary_n (sqlstate error) 5))).

(** ** The exported functions *)

Definition adbc_database_new : nif term :=
  r <- allocate_resource Database ;;
  match r with
  | inl error => ret error
  | inr database =>
      p <- enif_alloc ;;
      write_val database p ;;
      v <- read_val database ;;
      memset v ;;
      v <- read_val database ;;
      r <- AdbcDatabaseNew v ;;
      let '(code, adbc_error) := r in
      if decide (code ≠ ADBC_STATUS_OK) then
        v <- read_val database ;;
        enif_free v ;;
        enif_release_resource database ;;
        ret_ <- nif_error_from_adbc_error adbc_error ;;
        release_adbc_error adbc_error ;;
        ret ret_
      else
        ret_ <- enif_make_resource database ;;
        enif_release_resource database ;;
        ret (nif_ok_with ret_)
  end.

Definition adbc_database_set_option (argv0 argv1 argv2 : term) : nif term :=
  fun w =>
  match get_resource Database argv0 w with
  | inl error => ret error w
  | inr database =>
      match nif_get argv1 with
      | None => ret enif_make_badarg w
      | Some key =>
          match nif_get argv2 with
          | None => ret enif_make_badarg w
          | Some value =>
              (v <- read_val database ;;
               r <- AdbcDatabaseSetOption v key value ;;
               let '(code, adbc_error) := r in
               if decide (code ≠ ADBC_STATUS_OK) then
                 ret_ <- nif_error_from_adbc_error adbc_error ;;
                 release_adbc_error adbc_error ;;
                 ret ret_
               else ret nif_ok) w
          end
      end
  end.

Definition adbc_database_init (argv0 : term) : nif term :=
  fun w =>
  match get_resource Database argv0 w with
  | inl error => ret error w
  | inr database =>
      (v <- read_val database ;;
       r <- AdbcDatabaseInit v ;;
       let '(code, adbc_error) := r in
       if decide (code ≠ ADBC_STATUS_OK) then
         ret_ <- nif_error_from_adbc_error adbc_error ;;
         release_adbc_error adbc_error ;;
         ret ret_
       else ret nif_ok) w
  end.

Definition adbc_database_release (argv0 : term) : nif term :=
  fun w =>
  match get_resource Database argv0 w with
  | inl error => ret error w
  | inr database =>
      (v <- read_val database ;;
       match v with
       | None => ret enif_make_badarg
       | Some _ =>
           v <- read_val database ;;
           r <- AdbcDatabaseRelease v ;;
           let '(code, adbc_error) := r in
           if decide (code ≠ ADBC_STATUS_OK) then
             ret_ <- nif_error_from_adbc_error adbc_error ;;
             release_adbc_error adbc_error ;;
             ret ret_
           else
             v <- read_val database ;;
             enif_free v ;;
             write_val database None ;;
             ret nif_ok
       end) w
  end.

Definition adbc_connection_new : nif term :=
  r <- allocate_resource Connection ;;
  match r with
  | inl error => ret error
  | inr connection =>
      p <- enif_alloc ;;
      write_val connection p ;;
      v <- read_val connection ;;
      memset v ;;
      v <- read_val connection ;;
      r <- AdbcConnectionNew v ;;
      let '(code, adbc_error) := r in
      if decide (code ≠ ADBC_STATUS_OK) then
        v <- read_val connection ;;
        enif_free v ;;
        enif_release_resource connection ;;
        ret_ <- nif_error_from_adbc_error adbc_error ;;
        release_adbc_error adbc_error ;;
        ret ret_
      else
        ret_ <- enif_make_resource connection ;;
        enif_release_resource connection ;;
        ret (nif_ok_with ret_)
  end.

Definition adbc_connection_set_option (argv0 argv1 argv2 : term) : nif term :=
  fun w =>
  match get_resource Connection argv0 w with
  | inl error => ret error w
  | inr connection =>
      match nif_get argv1 with
      | None => ret enif_make_badarg w
      | Some key =>
          match nif_get argv2 with
          | None => ret enif_make_badarg w
          | Some value =>
              (v <- read_val connection ;;
               r <- AdbcConnectionSetOption v key value ;;
               let '(code, adbc_error) := r in
               if decide (code ≠ ADBC_STATUS_OK) then
                 ret_ <- nif_error_from_adbc_error adbc_error ;;
                 release_adbc_error adbc_error ;;
                 ret ret_
               else ret nif_ok) w
          end
      end
  end.

Definition adbc_connection_init (argv0 argv1 : term) : nif term :=
  fun w =>
  match get_resource Connection argv0 w with
  | inl error => ret error w
  | inr connection =>
      match get_resource Database argv1 w with
      | inl error => ret error w
      | inr db =>
          (c <- read_val connection ;;
           d <- read_val db ;;
           r <- AdbcConnectionInit c d ;;
           let '(code, adbc_error) := r in
           if decide (code ≠ ADBC_STATUS_OK) then
             ret_ <- nif_error_from_adbc_error adbc_error ;;
             release_adbc_error adbc_error ;;
             ret ret_
           else ret nif_ok) w
      end
  end.

Definition adbc_connection_release (argv0 : term) : nif term :=
  fun w =>
  match get_resource Connection argv0 w with
  | inl error => ret error w
  | inr connection =>
      (v <- read_val connection ;;
       match v with
       | None => ret enif_make_badarg
       | Some _ =>
           v <- read_val connection ;;
           r <- AdbcConnectionRelease v ;;
           let '(code, adbc_error) := r in
           if decide (code ≠ ADBC_STATUS_OK) then
             ret_ <- nif_error_from_adbc_error adbc_error ;;
             release_adbc_error adbc_error ;;
             ret ret_
           else
             v <- read_val connection ;;
             enif_free v ;;
             write_val connection None ;;
             ret nif_ok
       end) w
  end.

(** The functions by handle kind, and the native call each one makes. *)
Definition nif_new (k : handle_kind) : nif term :=
  match k with
  | Database => adbc_database_new
  | Connection => adbc_connection_new
  end.

Definition nif_set_option (k : handle_kind) : term -> term -> term -> nif term :=
  match k with
  | Database => adbc_database_set_option
  | Connection => adbc_connection_set_option
  end.

Definition nif_release (k : handle_kind) : term -> nif term :=
  match k with
  | Database => adbc_database_release
  | Connection => adbc_connection_release
  end.

Definition new_call (k : handle_kind) (h : option ptr) : native_call :=
  match k with Database => DatabaseNew h | Connection => ConnectionNew h end.

Definition set_option_call (k : handle_kind) (h : option ptr) (key value : string)
  : native_call :=
  match k with
  | Database => DatabaseSetOption h key value
  | Connection => ConnectionSetOption h key value
  end.

Definition release_call (k : handle_kind) (h : option ptr) : native_call :=
  match k with Database => DatabaseRelease h | Connection => ConnectionRelease h end.

(** The failure result built from a native error, and the events of its
    release. *)
Definition translated (e : AdbcError) : term :=
  nif_error (Tuple [Binary (message e); Int (vendor_code e);
                    Binary (substring 0 5 (sqlstate e))]).

Definition release_events (e : AdbcError) : list event :=
  match release e with
  | Some cb => [EvErrorRelease cb e]
  | None => []
  end.

(** What a NIF makes of one native call [c] from [w] when nothing else is
    at stake: the acknowledgement, or the translated error once the error
    struct was read and then released. *)
Definition exchanged (c : native_call) (w : world) : outcome term :=
  let '(code, e, d) := adbc c (native w) in
  if decide (code ≠ ADBC_STATUS_OK) then
    Done (translated e)
      (mkWorld (resources w) (blocks w) (alloc_plan w) d
         (trace w ++ EvNative c code :: EvErrorRead e :: release_events e))
  else
    Done nif_ok
      (mkWorld (resources w) (blocks w) (alloc_plan w) d
         (trace w ++ [EvNative c code])).

(** A wrapper of kind [k] holding the live native handle [p]. *)
Definition live (w : world) (k : handle_kind) (res : nat) (p : ptr) : Prop :=
  exists r, resources w !! res = Some r /\ rtype r = k /\ val r = Some p /\
            p ∈ blocks w.

(** The export table [nif_functions]: name, arity and body of each entry;
    the host calls a body with exactly [arity] arguments. *)
Definition arg (argv : list term) (i : nat) : term := nth i argv Badarg.

Definition nif_functions : list (string * nat * (list term -> nif term)) :=
  [ ("adbc_database_new", 0%nat, fun _ => adbc_database_new);
    ("adbc_database_set_option", 3%nat,
       fun argv => adbc_database_set_option (arg argv 0) (arg argv 1) (arg argv 2));
    ("adbc_database_init", 1%nat, fun argv => adbc_database_init (arg argv 0));
    ("adbc_database_release", 1%nat, fun argv => adbc_database_release (arg argv 0));
    ("adbc_connection_new", 0%nat, fun _ => adbc_connection_new);
    ("adbc_connection_set_option", 3%nat,
       fun argv => adbc_connection_set_option (arg argv 0) (arg argv 1) (arg argv 2));
    ("adbc_connection_init", 2%nat,
       fun argv => adbc_connection_init (arg argv 0) (arg argv 1));
    ("adbc_connection_release", 1%nat, fun argv => adbc_connection_release (arg argv 0)) ].

(** The events a run of [m] from [w] adds to the trace. *)
Definition events_of {A} (m : nif A) (w : world) : list event :=
  drop (length (trace w)) (trace (final (m w))).

(** What a sequence of calls returns, each call starting in the world the
    previous one ended in. *)
Fixpoint results_of {A} (calls : list (nif A)) (w : world) : list (option A) :=
  match calls with
  | [] => []
  | m :: rest => returned (m w) :: results_of rest (final (m w))
  end.

End Bridge.

Arguments Done {driver A} a w.
Arguments Crash {driver A} f w.
Arguments mkWorld {driver}.
Arguments resources {driver}.
Arguments blocks {driver}.
Arguments alloc_plan {driver}.
Arguments native {driver}.
Arguments trace {driver}.
Arguments final {driver A}.
Arguments returned {driver A}.
Arguments events_of {driver A}.
Arguments results_of {driver A}.
Arguments live {driver}.
Arguments exchanged {driver}.
Arguments get_resource {driver}.
Arguments destruct_resource {driver}.
Arguments nif_error_from_adbc_error {driver}.
Arguments adbc_database_new {driver}.
Arguments adbc_database_set_option {driver}.
Arguments adbc_database_init {driver}.
Arguments adbc_database_release {driver}.
Arguments adbc_connection_new {driver}.
Arguments adbc_connection_set_option {driver}.
Arguments adbc_connection_init {driver}.
Arguments adbc_connection_release {driver}.
Arguments nif_new {driver}.
Arguments nif_set_option {driver}.
Arguments nif_release {driver}.
Arguments nif_functions {driver}.

(** ** Vocabulary of the properties *)

(** The error discipline of a run [o] from [w] whose native call [c] failed
    with [code]: the result is the translation of the error the library
    filled in, and the run's events end with the read of that error followed
    by its release when the callback is set, with no release before. *)
Definition error_discipline {driver : Type}
    (adbc : native_call -> driver -> Z * AdbcError * driver)
    (o : outcome driver term) (w : world driver)
    (c : native_call) (code : Z) : Prop :=
  exists e pre,
    (adbc c (native w)).1 = (code, e) /\
    returned o = Some (translated e) /\
    Forall (fun ev => is_error_release ev = false) pre /\
    drop (length (trace w)) (trace (final o))
      = pre ++ EvErrorRead e ::
          match release e with
          | Some cb => [EvErrorRelease cb e]
          | None => []
          end.

(** A run of [m] from [w] that returns the translation of [e] and whose
    events are [pre], then the read of [e], then, when [e] carries a release
    callback, the one call of it. *)
Definition read_then_released {driver : Type} (pre : list event) (e : AdbcError)
    (m : nif driver term) (w : world driver) : Prop :=
  returned (m w) = Some (translated e) /\
  events_of m w
    = pre ++ EvErrorRead e ::
        match release e with
        | Some cb => [EvErrorRelease cb e]
        | None => []
        end.

(** A run that left every wrapper and every block as they were. *)
Definition unchanged_by {driver A : Type} (o : outcome driver A) (w : world driver)
  : Prop :=
  resources (final o) = resources w /\ blocks (final o) = blocks w.

(** The heap the wrappers describe: every non-null [val] points to a live
    block, and no block is the handle of two wrappers. *)
Definition heap_consistent {driver : Type} (w : world driver) : Prop :=
  (forall res r p,
     resources w !! res = Some r -> val r = Some p -> p ∈ blocks w) /\
  (forall res1 res2 r1 r2 p,
     resources w !! res1 = Some r1 -> resources w !! res2 = Some r2 ->
     val r1 = Some p -> val r2 = Some p -> res1 = res2).

(** The world after a series of [set_option] calls on one reference, each
    with its key and value, whatever each call returns. *)
Fixpoint configure {driver : Type}
    (adbc : native_call -> driver -> Z * AdbcError * driver)
    (nif_get : term -> option string) (k : handle_kind) (t : term)
    (options : list (term * term)) (w : world driver) : world driver :=
  match options with
  | [] => w
  | (key, value) :: rest =>
      configure adbc nif_get k t rest
        (final (nif_set_option adbc nif_get k t key value w))
  end.

(** The world a sequence of calls ends in, each call starting in the world
    the previous one ended in. *)
Fixpoint world_after {driver A : Type} (calls : list (nif driver A))
    (w : world driver) : world driver :=
  match calls with
  | [] => w
  | m :: rest => world_after rest (final (m w))
  end.

(** [init] by handle kind; the connection's takes the database reference. *)
Definition nif_init {driver : Type}
    (adbc : native_call -> driver -> Z * AdbcError * driver)
    (k : handle_kind) (t db : term) : nif driver term :=
  match k with
  | Database => adbc_database_init adbc t
  | Connection => adbc_connection_init adbc t db
  end.

(** The runs an exported function can make from [w], one rule per path of
    the source: a refusal before anything happens; a native call answered
    with success or with failure ([set_option], [init], and [release] when
    the library fails); the two ends of a [release] whose native call
    succeeded; the four ends of a [new]. *)
Inductive run_of {driver : Type}
    (adbc : native_call -> driver -> Z * AdbcError * driver)
    (alloc_failure_reason : term) (w : world driver)
  : outcome driver term -> Prop :=
| run_refused :
    run_of adbc alloc_failure_reason w (Done Badarg w)
| run_acknowledged c code e d :
    adbc c (native w) = (code, e, d) -> code = ADBC_STATUS_OK ->
    ~ In None (handles_of c) ->
    run_of adbc alloc_failure_reason w
      (Done nif_ok
         (mkWorld (resources w) (blocks w) (alloc_plan w) d
            (trace w ++ [EvNative c code])))
| run_failed c code e d :
    adbc c (native w) = (code, e, d) -> code ≠ ADBC_STATUS_OK ->
    ~ In None (handles_of c) ->
    run_of adbc alloc_failure_reason w
      (Done (translated e)
         (mkWorld (resources w) (blocks w) (alloc_plan w) d
            (trace w ++ EvNative c code :: EvErrorRead e :: release_events e)))
| run_released k res r p code e d :
    resources w !! res = Some r -> rtype r = k -> val r = Some p ->
    p ∈ blocks w ->
    adbc (release_call k (Some p)) (native w) = (code, e, d) ->
    code = ADBC_STATUS_OK ->
    run_of adbc alloc_failure_reason w
      (Done nif_ok
         (mkWorld (<[res := mkNifRes k None (refc r)]> (resources w))
            (blocks w ∖ {[p]}) (alloc_plan w) d
            (trace w ++ [EvNative (release_call k (Some p)) code; EvFree p])))
| run_release_of_freed k res r p code e d :
    resources w !! res = Some r -> rtype r = k -> val r = Some p ->
    p ∉ blocks w ->
    adbc (release_call k (Some p)) (native w) = (code, e, d) ->
    code = ADBC_STATUS_OK ->
    run_of adbc alloc_failure_reason w
      (Crash InvalidFree
         (mkWorld (resources w) (blocks w) (alloc_plan w) d
            (trace w ++ [EvNative (release_call k (Some p)) code])))
| run_new_without_wrapper :
    hd true (alloc_plan w) = false ->
    run_of adbc alloc_failure_reason w
      (Done (nif_error alloc_failure_reason)
         (mkWorld (resources w) (blocks w) (tl (alloc_plan w)) (native w) (trace w)))
| run_new_without_block k :
    hd true (alloc_plan w) = true -> hd true (tl (alloc_plan w)) = false ->
    run_of adbc alloc_failure_reason w
      (Crash NullDereference
         (mkWorld (<[fresh (dom (resources w)) := mkNifRes k None 1]> (resources w))
            (blocks w) (tl (tl (alloc_plan w))) (native w) (trace w)))
| run_new_constructed k code e d :
    hd true (alloc_plan w) = true -> hd true (tl (alloc_plan w)) = true ->
    adbc (new_call k (Some (fresh (blocks w)))) (native w) = (code, e, d) ->
    code = ADBC_STATUS_OK ->
    run_of adbc alloc_failure_reason w
      (Done (nif_ok_with (Resource (fresh (dom (resources w)))))
         (mkWorld
            (<[fresh (dom (resources w)) := mkNifRes k (Some (fresh (blocks w))) 1]>
               (resources w))
            ({[fresh (blocks w)]} ∪ blocks w) (tl (tl (alloc_plan w))) d
            (trace w ++ [EvNative (new_call k (Some (fresh (blocks w)))) code;
                         EvReleaseResource (fresh (dom (resources w)))])))
| run_new_failed k code e d :
    hd true (alloc_plan w) = true -> hd true (tl (alloc_plan w)) = true ->
    adbc (new_call k (Some (fresh (blocks w)))) (native w) = (code, e, d) ->
    code ≠ ADBC_STATUS_OK ->
    run_of adbc alloc_failure_reason w
      (Done (translated e)
         (mkWorld
            (<[fresh (dom (resources w)) := mkNifRes k (Some (fresh (blocks w))) 0]>
               (resources w))
            (blocks w) (tl (tl (alloc_plan w))) d
            (trace w ++ [EvNative (new_call k (Some (fresh (blocks w)))) code;
                         EvFree (fresh (blocks w));
                         EvReleaseResource (fresh (dom (resources w)));
                         EvErrorRead e] ++ release_events e))).

(** ** Module load *)

(** The static members [NifRes<struct AdbcDatabase>::type] and
    [NifRes<struct AdbcConnection>::type], both [nullptr] at first. *)
Record nif_types := mkTypes {
  database_type : option nat;
  connection_type : option nat
}.

Definition no_types : nif_types := mkTypes None None.

Section Load.

(** [enif_open_resource_type(env, module, name, dtor, flags, tried)]: the
    registered type, or [NULL] when the host refuses it. *)
Variable enif_open_resource_type : string -> string -> option nat.

Definition on_load (types : nif_types) : Z * nif_types :=
  match enif_open_resource_type "Elixir.ADBC.Nif" "NifResAdbcDatabase" with
  | None => (-1, types)
  | Some rt =>
      let types := mkTypes (Some rt) (connection_type types) in
      match enif_open_resource_type "Elixir.ADBC.Nif" "NifResAdbcConnection" with
      | None => (-1, types)
      | Some rt => (0, mkTypes (database_type types) (Some rt))
      end
  end.

(** The host's loader: the library fails to load when [on_load] returns
    anything other than 0, and none of [nif_functions] is then callable. *)
Definition load_nif : option nif_types :=
  let '(rc, types) := on_load no_types in
  if decide (rc = 0) then Some types else None.

End Load.

(** ** A scripted native library, for concrete runs *)

(** The library answers its calls from a script, one entry per call; past
    the script's end every call succeeds. *)
Definition no_error : AdbcError := mkAdbcError "" 0 "00000" None.

Definition scripted (c : native_call) (script : list (Z * AdbcError))
  : Z * AdbcError * list (Z * AdbcError) :=
  match script with
  | [] => (ADBC_STATUS_OK, no_error, [])
  | (code, e) :: rest => (code, e, rest)
  end.

(** The text of a host value: binaries have one. *)
Definition binary_text (t : term) : option string :=
  match t with Binary s => Some s | _ => None end.

Definition enomem : term := Binary "cannot allocate Nif resource".

Definition bad_option : AdbcError := mkAdbcError "bad option" 42 "42000" (Some 7%nat).

(** An empty host, a native library following [script] and an allocator
    following [plan]. *)
Definition boot (script : list (Z * AdbcError)) (plan : list bool)
  : world (list (Z * AdbcError)) :=
  mkWorld ∅ ∅ plan script [].


(** The world after one successful [new] of a database on an empty host
    whose library goes on with [script], and that world after a successful
    [release] of the database. *)
Definition fresh_database (script : list (Z * AdbcError))
  : world (list (Z * AdbcError)) :=
  final (adbc_database_new scripted enomem (boot ((ADBC_STATUS_OK, no_error) :: script) [])).

Definition released_database : world (list (Z * AdbcError)) :=
  final (adbc_database_release scripted (Resource 0) (fresh_database [])).

(** The world after a successful [new] of a database (wrapper 0, block 0)
    and of a connection (wrapper 1, block 1) on an empty host whose library
    goes on with [script]. *)
Definition two_handles (script : list (Z * AdbcError))
  : world (list (Z * AdbcError)) :=
  world_after
    [ adbc_database_new scripted enomem; adbc_connection_new scripted enomem ]
    (boot ((ADBC_STATUS_OK, no_error) :: (ADBC_STATUS_OK, no_error) :: script) []).

(** ** Tactics *)

(** Runs the monadic plumbing and the host primitives of a NIF body. *)
Ltac run_nif :=
  cbv beta iota zeta delta
    [bind ret read_val write_val emit crash enif_free enif_release_resource
     enif_make_resource enif_alloc enif_alloc_resource next_alloc memset
     allocate_resource nif_error_from_adbc_error release_adbc_error
     AdbcDatabaseNew AdbcDatabaseSetOption AdbcDatabaseInit AdbcDatabaseRelease
     AdbcConnectionNew AdbcConnectionSetOption AdbcConnectionInit
     AdbcConnectionRelease native_invoke with_trace with_native with_blocks
     with_resources with_alloc_plan];
  cbn [resources blocks alloc_plan native trace rtype val refc].

(** Closes a goal that assumes an event of a run that added none. *)
Ltac no_events := cbn [final]; rewrite drop_all; intros [].

(** * Properties *)

Section Properties.

#[local] Set Default Proof Using "Type".

Variable driver : Type.
Variable adbc : native_call -> driver -> Z * AdbcError * driver.
Variable nif_get : term -> option string.
Variable alloc_failure_reason : term.

Implicit Types (w : world driver) (k : handle_kind) (res : nat) (e : AdbcError).

(** ** What [get_resource] lets through *)

Lemma get_resource_inl k t w error :
  get_resource k t w = inl error -> error = Badarg.
Proof.
  unfold get_resource, enif_make_badarg.
  destruct t; try congruence.
  destruct (resources w !! id) as [r|]; [|congruence].
  destruct (decide (rtype r = k)); [|congruence].
  destruct (val r); congruence.
Qed.

Lemma get_resource_inr k t w res :
  get_resource k t w = inr res ->
  exists r p, t = Resource res /\ resources w !! res = Some r /\
              rtype r = k /\ val r = Some p.
Proof.
  unfold get_resource.
  destruct t; try congruence.
  destruct (resources w !! id) as [r|] eqn:Hr; [|congruence].
  destruct (decide (rtype r = k)); [|congruence].
  destruct (val r) as [p|] eqn:Hv; [|congruence].
  intros [= <-]. eauto 10.
Qed.

Lemma get_resource_valid k w res r p :
  resources w !! res = Some r -> rtype r = k -> val r = Some p ->
  get_resource k (Resource res) w = inr res.
Proof.
  intros Hr Hk Hv. unfold get_resource. rewrite Hr, Hv.
  destruct (decide (rtype r = k)); congruence.
Qed.

Lemma get_resource_null k w res r :
  resources w !! res = Some r -> val r = None ->
  get_resource k (Resource res) w = inl Badarg.
Proof.
  intros Hr Hv. unfold get_resource. rewrite Hr, Hv.
  destruct (decide (rtype r = k)); reflexivity.
Qed.

(** ** Runs of [release], path by path *)

Lemma release_run k w res r p :
  resources w !! res = Some r -> rtype r = k -> val r = Some p ->
  nif_release adbc k (Resource res) w =
    let '(code, e, d) := adbc (release_call k (Some p)) (native w) in
    if decide (code ≠ ADBC_STATUS_OK) then
      Done (translated e)
        (mkWorld (resources w) (blocks w) (alloc_plan w) d
           (trace w ++ EvNative (release_call k (Some p)) code
                       :: EvErrorRead e :: release_events e))
    else if decide (p ∈ blocks w) then
      Done nif_ok
        (mkWorld (<[res := mkNifRes (rtype r) None (refc r)]> (resources w))
           (blocks w ∖ {[p]}) (alloc_plan w) d
           (trace w ++ [EvNative (release_call k (Some p)) code; EvFree p]))
    else
      Crash InvalidFree
        (mkWorld (resources w) (blocks w) (alloc_plan w) d
           (trace w ++ [EvNative (release_call k (Some p)) code])).
Proof.
  intros Hr Hk Hv. pose proof (get_resource_valid k w res r p Hr Hk Hv) as Hg.
  destruct r as [k' v n]; simpl in Hk, Hv; subst k' v.
  destruct k; unfold nif_release, adbc_database_release, adbc_connection_release;
    rewrite Hg; simpl release_call; repeat (run_nif; try rewrite Hr);
    destruct (adbc _ (native w)) as [[code e] d]; run_nif;
    (destruct (decide (code ≠ ADBC_STATUS_OK)); run_nif;
     [ unfold release_events; destruct (release e); run_nif;
       rewrite <- ?app_assoc; reflexivity
     | rewrite Hr; run_nif; destruct (decide (p ∈ blocks w)); run_nif;
       [ rewrite Hr; run_nif; rewrite <- ?app_assoc; reflexivity | reflexivity ] ]).
Qed.

(** ** Runs of [set_option] and [init] *)

Lemma set_option_rejects k t a1 a2 w error :
  get_resource k t w = inl error ->
  nif_set_option adbc nif_get k t a1 a2 w = Done error w.
Proof.
  intros Hg. destruct k; unfold nif_set_option, adbc_database_set_option,
    adbc_connection_set_option; rewrite Hg; reflexivity.
Qed.

Lemma set_option_malformed k t a1 a2 w res :
  get_resource k t w = inr res ->
  nif_get a1 = None \/ nif_get a2 = None ->
  nif_set_option adbc nif_get k t a1 a2 w = Done Badarg w.
Proof.
  intros Hg Hbad. destruct k; unfold nif_set_option, adbc_database_set_option,
    adbc_connection_set_option; rewrite Hg;
    destruct (nif_get a1), (nif_get a2), Hbad; congruence || reflexivity.
Qed.

Lemma set_option_run k w res r p a1 a2 key value :
  resources w !! res = Some r -> rtype r = k -> val r = Some p ->
  nif_get a1 = Some key -> nif_get a2 = Some value ->
  nif_set_option adbc nif_get k (Resource res) a1 a2 w =
    exchanged adbc (set_option_call k (Some p) key value) w.
Proof.
  intros Hr Hk Hv H1 H2. pose proof (get_resource_valid k w res r p Hr Hk Hv) as Hg.
  destruct r as [k' v n]; simpl in Hk, Hv; subst k' v.
  destruct k; unfold nif_set_option, adbc_database_set_option,
    adbc_connection_set_option, exchanged;
    rewrite Hg, H1, H2; simpl set_option_call; repeat (run_nif; try rewrite Hr);
    destruct (adbc _ (native w)) as [[code e] d]; run_nif;
    (destruct (decide (code ≠ ADBC_STATUS_OK)); run_nif;
     [ unfold release_events; destruct (release e); run_nif;
       rewrite <- ?app_assoc; reflexivity
     | reflexivity ]).
Qed.

Lemma database_init_rejects t w error :
  get_resource Database t w = inl error ->
  adbc_database_init adbc t w = Done error w.
Proof. intros Hg. unfold adbc_database_init. rewrite Hg. reflexivity. Qed.

Lemma database_init_run w res r p :
  resources w !! res = Some r -> rtype r = Database -> val r = Some p ->
  adbc_database_init adbc (Resource res) w = exchanged adbc (DatabaseInit (Some p)) w.
Proof.
  intros Hr Hk Hv. pose proof (get_resource_valid _ w res r p Hr Hk Hv) as Hg.
  destruct r as [k' v n]; simpl in Hk, Hv; subst k' v.
  unfold adbc_database_init, exchanged.
  rewrite Hg; repeat (run_nif; try rewrite Hr).
  destruct (adbc _ (native w)) as [[code e] d]; run_nif.
  destruct (decide (code ≠ ADBC_STATUS_OK)); run_nif; [|reflexivity].
  unfold release_events; destruct (release e); run_nif;
    rewrite <- ?app_assoc; reflexivity.
Qed.

Lemma connection_init_rejects t t' w :
  (exists error, get_resource Connection t w = inl error) \/
  (exists error, get_resource Database t' w = inl error) ->
  adbc_connection_init adbc t t' w = Done Badarg w.
Proof.
  unfold adbc_connection_init.
  intros [[error Hg] | [error Hg]].
  - rewrite Hg. apply get_resource_inl in Hg. subst. reflexivity.
  - rewrite Hg. apply get_resource_inl in Hg. subst.
    destruct (get_resource Connection t w) as [error|] eqn:Hc; [|reflexivity].
    apply get_resource_inl in Hc. subst. reflexivity.
Qed.

Lemma connection_init_run w res r p res' r' q :
  resources w !! res = Some r -> rtype r = Connection -> val r = Some p ->
  resources w !! res' = Some r' -> rtype r' = Database -> val r' = Some q ->
  adbc_connection_init adbc (Resource res) (Resource res') w =
    exchanged adbc (ConnectionInit (Some p) (Some q)) w.
Proof.
  intros Hr Hk Hv Hr' Hk' Hv'.
  pose proof (get_resource_valid _ w res r p Hr Hk Hv) as Hg.
  pose proof (get_resource_valid _ w res' r' q Hr' Hk' Hv') as Hg'.
  destruct r as [k v n]; simpl in Hk, Hv; subst k v.
  destruct r' as [k v n']; simpl in Hk', Hv'; subst k v.
  unfold adbc_connection_init, exchanged.
  rewrite Hg, Hg'; repeat (run_nif; rewrite ?Hr, ?Hr').
  destruct (adbc _ (native w)) as [[code e] d]; run_nif.
  destruct (decide (code ≠ ADBC_STATUS_OK)); run_nif; [|reflexivity].
  unfold release_events; destruct (release e); run_nif;
    rewrite <- ?app_assoc; reflexivity.
Qed.

Lemma release_rejects k t w error :
  get_resource k t w = inl error -> nif_release adbc k t w = Done error w.
Proof.
  intros Hg. destruct k; unfold nif_release, adbc_database_release,
    adbc_connection_release; rewrite Hg; reflexivity.
Qed.

(** ** Runs of [new] *)

Lemma new_run k w :
  let res := fresh (dom (resources w)) in
  let p := fresh (blocks w) in
  let rest := tl (tl (alloc_plan w)) in
  nif_new adbc alloc_failure_reason k w =
    if hd true (alloc_plan w) then
      if hd true (tl (alloc_plan w)) then
        let '(code, e, d) := adbc (new_call k (Some p)) (native w) in
        if decide (code ≠ ADBC_STATUS_OK) then
          Done (translated e)
            (mkWorld (<[res := mkNifRes k (Some p) 0]> (resources w))
               (blocks w) rest d
               (trace w ++ [EvNative (new_call k (Some p)) code; EvFree p;
                            EvReleaseResource res; EvErrorRead e]
                        ++ release_events e))
        else
          Done (nif_ok_with (Resource res))
            (mkWorld (<[res := mkNifRes k (Some p) 1]> (resources w))
               ({[p]} ∪ blocks w) rest d
               (trace w ++ [EvNative (new_call k (Some p)) code;
                            EvReleaseResource res]))
      else
        Crash NullDereference
          (mkWorld (<[res := mkNifRes k None 1]> (resources w))
             (blocks w) rest (native w) (trace w))
    else
      Done (nif_error alloc_failure_reason)
        (mkWorld (resources w) (blocks w) (tl (alloc_plan w)) (native w) (trace w)).
Proof.
  intros res p rest.
  assert (Hp : p ∈ ({[p]} ∪ blocks w : gset nat)).
  { apply elem_of_union. left. apply elem_of_singleton. reflexivity. }
  assert (Hfree : ({[p]} ∪ blocks w) ∖ {[p]} = blocks w).
  { pose proof (is_fresh (blocks w)) as Hfresh. fold p in Hfresh.
    apply set_eq. intros x. rewrite elem_of_difference, elem_of_union,
      elem_of_singleton. split; [intros [[Hx|Hx] Hne]; [contradiction | exact Hx]|].
    intros Hx. split; [auto|]. intros ->. auto. }
  destruct k; unfold nif_new, adbc_database_new, adbc_connection_new;
    simpl new_call; run_nif;
    (destruct (hd true (alloc_plan w)); run_nif; [|reflexivity]);
    (destruct (hd true (tl (alloc_plan w))); run_nif;
     fold res; fold p; repeat (rewrite ?lookup_insert_eq; run_nif);
     [| rewrite insert_insert_eq; reflexivity]);
    rewrite (decide_True (P := p ∈ {[p]} ∪ blocks w)) by exact Hp; run_nif;
    repeat (rewrite ?lookup_insert_eq; run_nif);
    destruct (adbc _ (native w)) as [[code e] d]; run_nif;
    (destruct (decide (code ≠ ADBC_STATUS_OK)); run_nif;
     repeat (rewrite ?lookup_insert_eq; run_nif);
     [ rewrite (decide_True (P := p ∈ {[p]} ∪ blocks w)) by exact Hp; run_nif;
       repeat (rewrite ?lookup_insert_eq; run_nif);
       unfold release_events; destruct (release e); run_nif;
       rewrite Hfree, !insert_insert_eq, <- ?app_assoc; reflexivity
     | rewrite !insert_insert_eq, <- ?app_assoc; reflexivity ]).
Qed.

(** ** The destructor *)

Lemma destruct_resource_null w res r :
  resources w !! res = Some r -> val r = None ->
  destruct_resource res w = Done tt w.
Proof.
  intros Hr Hv. unfold destruct_resource. run_nif. rewrite Hr, Hv. reflexivity.
Qed.

Lemma destruct_resource_live w k res p :
  live w k res p ->
  exists w', destruct_resource res w = Done tt w' /\
             blocks w' = blocks w ∖ {[p]} /\ trace w' = trace w ++ [EvFree p].
Proof.
  intros (r & Hr & _ & Hv & Hp). unfold destruct_resource.
  repeat (run_nif; rewrite ?Hr, ?Hv). rewrite decide_True by exact Hp.
  repeat (run_nif; rewrite ?Hr, ?Hv). eauto.
Qed.

(** ** Events of a run *)

Lemma events_of_extends {A} (m : nif driver A) w evs :
  trace (final (m w)) = trace w ++ evs -> events_of m w = evs.
Proof. intros H. unfold events_of. rewrite H. apply drop_app_length. Qed.

Lemma events_of_same {A} (m : nif driver A) w a :
  m w = Done a w -> events_of m w = [].
Proof.
  intros H. apply events_of_extends. rewrite H. simpl. symmetry. apply app_nil_r.
Qed.

Lemma In_release_events ev e :
  In ev (release_events e) -> is_error_release ev = true.
Proof.
  unfold release_events. destruct (release e); simpl; [|intros []].
  intros [<-|[]]. reflexivity.
Qed.

(** ** The error translator *)

Lemma translator_returns_translated e w :
  nif_error_from_adbc_error e w
    = Done (translated e) (mkWorld (resources w) (blocks w) (alloc_plan w)
                             (native w) (trace w ++ [EvErrorRead e])).
Proof. reflexivity. Qed.

(** C2: for a native error with message [m], vendor code [v] and 5-byte SQL
    state [s], the translator returns the failure result around a payload of
    exactly three fields, in order: [m] as text, [v] as an integer, [s] as
    text of exactly 5 bytes. *)
Theorem C2_error_payload (m : string) (v : Z) (s : string) (cb : option nat) w :
  String.length s = 5%nat ->
  returned (nif_error_from_adbc_error (mkAdbcError m v s cb) w)
    = Some (nif_error (Tuple [Binary m; Int v; Binary s])).
Proof.
  intros Hlen.
  assert (Hsub : substring 0 5 s = s).
  { do 5 (destruct s as [|? s]; [discriminate Hlen|]).
    destruct s; [reflexivity | discriminate Hlen]. }
  unfold nif_error_from_adbc_error, returned. run_nif.
  unfold enif_make_tuple3, make_binary, make_binary_n, enif_make_int.
  cbn [message vendor_code sqlstate]. rewrite Hsub. reflexivity.
Qed.

(** ** Contract violations *)

(** C8: when the key or the value of [set_option] has no text, the call
    returns the generic invalid-argument signal, not a translated library
    error, and leaves the world as it was: the native option-setter is not
    invoked. *)
Theorem C8_malformed_text_is_badarg k t a1 a2 w :
  nif_get a1 = None \/ nif_get a2 = None ->
  nif_set_option adbc nif_get k t a1 a2 w = Done Badarg w /\
  events_of (nif_set_option adbc nif_get k t a1 a2) w = [].
Proof.
  intros Hbad.
  assert (H : nif_set_option adbc nif_get k t a1 a2 w = Done Badarg w).
  { destruct (get_resource k t w) as [error|res] eqn:Hg.
    - rewrite (set_option_rejects _ _ _ _ _ _ Hg).
      apply get_resource_inl in Hg. subst. reflexivity.
    - eapply set_option_malformed; eauto. }
  split; [exact H | eapply events_of_same; exact H].
Qed.

(** C1: on a wrapper whose native handle pointer is null, [set_option] and
    [init] of either kind return the generic invalid-argument signal, also
    when the wrapper is the database argument of the connection's [init];
    the world is left as it was, so no entry point of the native library is
    called with it. *)
Theorem C1_null_handle_is_rejected k w res r a1 a2 t :
  resources w !! res = Some r -> val r = None ->
  (nif_set_option adbc nif_get k (Resource res) a1 a2 w = Done Badarg w /\
   adbc_database_init adbc (Resource res) w = Done Badarg w /\
   adbc_connection_init adbc (Resource res) t w = Done Badarg w /\
   adbc_connection_init adbc t (Resource res) w = Done Badarg w) /\
  (events_of (nif_set_option adbc nif_get k (Resource res) a1 a2) w = [] /\
   events_of (adbc_database_init adbc (Resource res)) w = [] /\
   events_of (adbc_connection_init adbc (Resource res) t) w = [] /\
   events_of (adbc_connection_init adbc t (Resource res)) w = []).
Proof.
  intros Hr Hv.
  assert (Hnull : forall k', get_resource k' (Resource res) w = inl Badarg)
    by (intros k'; eapply get_resource_null; eauto).
  assert (H : nif_set_option adbc nif_get k (Resource res) a1 a2 w = Done Badarg w /\
              adbc_database_init adbc (Resource res) w = Done Badarg w /\
              adbc_connection_init adbc (Resource res) t w = Done Badarg w /\
              adbc_connection_init adbc t (Resource res) w = Done Badarg w).
  { repeat split.
    - apply set_option_rejects, Hnull.
    - apply database_init_rejects, Hnull.
    - apply connection_init_rejects. left. eauto.
    - apply connection_init_rejects. right. eauto. }
  split; [exact H|].
  destruct H as (H1 & H2 & H3 & H4).
  repeat split; eapply events_of_same; eassumption.
Qed.

(** ** Release *)

(** C4: on a wrapper holding a live native handle, when the native release
    call succeeds, a first [release] returns the acknowledgement and a second
    [release] of the same reference returns the invalid-argument signal. *)
Theorem C4_release_twice k w res p :
  live w k res p ->
  (adbc (release_call k (Some p)) (native w)).1.1 = ADBC_STATUS_OK ->
  exists w1,
    nif_release adbc k (Resource res) w = Done nif_ok w1 /\
    nif_release adbc k (Resource res) w1 = Done Badarg w1.
Proof.
  intros (r & Hr & Hk & Hv & Hp) Hok.
  rewrite (release_run k w res r p Hr Hk Hv).
  destruct (adbc (release_call k (Some p)) (native w)) as [[code e] d].
  simpl in Hok. subst code.
  rewrite decide_False by (intros H; apply H; reflexivity).
  rewrite decide_True by exact Hp.
  eexists. split; [reflexivity|].
  apply release_rejects. eapply get_resource_null.
  - cbn [resources]. apply lookup_insert_eq.
  - reflexivity.
Qed.

(** A [release] that returned the acknowledgement was the release of a
    wrapper holding a live block: the native release, then the free. *)
Lemma acknowledged_release_was_a_free k t w w1 :
  nif_release adbc k t w = Done nif_ok w1 ->
  exists res r p,
    t = Resource res /\ resources w !! res = Some r /\ val r = Some p /\
    p ∈ blocks w /\
    events_of (nif_release adbc k t) w
      = [EvNative (release_call k (Some p)) ADBC_STATUS_OK; EvFree p] /\
    blocks w1 = blocks w ∖ {[p]} /\
    resources w1 = <[res := mkNifRes k None (refc r)]> (resources w) /\
    get_resource k t w1 = inl Badarg /\
    destruct_resource res w1 = Done tt w1.
Proof.
  intros Hrun.
  destruct (get_resource k t w) as [error|res] eqn:Hg.
  { rewrite (release_rejects _ _ _ _ Hg) in Hrun.
    apply get_resource_inl in Hg. subst. discriminate Hrun. }
  destruct (get_resource_inr _ _ _ _ Hg) as (r & p & -> & Hr & Hk & Hv).
  pose proof (release_run k w res r p Hr Hk Hv) as Hpath.
  assert (Hev := Hrun).
  rewrite Hpath in Hrun.
  destruct (adbc (release_call k (Some p)) (native w)) as [[code e] d].
  destruct (decide (code ≠ ADBC_STATUS_OK)) as [Hne|Heq]; [discriminate Hrun|].
  destruct (decide (p ∈ blocks w)) as [Hp|Hp]; [|discriminate Hrun].
  assert (code = ADBC_STATUS_OK) as -> by (apply dec_stable; exact Heq).
  injection Hrun as <-.
  exists res, r, p. rewrite Hk. repeat split; auto.
  - apply events_of_extends. rewrite Hev. reflexivity.
  - eapply get_resource_null; [apply lookup_insert_eq | reflexivity].
  - eapply destruct_resource_null; [apply lookup_insert_eq | reflexivity].
Qed.

(** C5: [release] of a wrapper holding a live native handle, when the native
    release call answers [ADBC_STATUS_OK], returns the acknowledgement after
    the native call and the free of the handle's block; the block is no
    longer allocated, the wrapper's pointer is null and nothing else has
    changed, and the destructor run on the wrapper afterwards does nothing. *)
Theorem C5_release_nulls_the_handle k w res p code e d :
  live w k res p ->
  adbc (release_call k (Some p)) (native w) = (code, e, d) ->
  code = ADBC_STATUS_OK ->
  exists r w1,
    resources w !! res = Some r /\
    nif_release adbc k (Resource res) w = Done nif_ok w1 /\
    events_of (nif_release adbc k (Resource res)) w
      = [EvNative (release_call k (Some p)) ADBC_STATUS_OK; EvFree p] /\
    blocks w1 = blocks w ∖ {[p]} /\ (p ∉ blocks w1) /\
    resources w1 = <[res := mkNifRes k None (refc r)]> (resources w) /\
    destruct_resource res w1 = Done tt w1.
Proof.
  intros (r & Hr & Hk & Hv & Hp) Ha ->.
  pose proof (release_run k w res r p Hr Hk Hv) as Hrun.
  rewrite Ha in Hrun.
  rewrite decide_False in Hrun by (intros H; apply H; reflexivity).
  rewrite decide_True in Hrun by exact Hp. rewrite Hk in Hrun.
  exists r. eexists. split; [exact Hr|]. split; [exact Hrun|].
  cbn [blocks resources]. repeat split.
  - apply events_of_extends. rewrite Hrun. reflexivity.
  - rewrite elem_of_difference, elem_of_singleton. intros [_ H]. apply H. reflexivity.
  - eapply destruct_resource_null; [apply lookup_insert_eq | reflexivity].
Qed.

(** ** Construction *)

(** A failed construction call among the events of a [new] tells the whole
    run. *)
Lemma failed_construction_event_unwinds k w h code :
  In (EvNative (new_call k h) code)
     (events_of (nif_new adbc alloc_failure_reason k) w) ->
  code ≠ ADBC_STATUS_OK ->
  exists res p e w',
    nif_new adbc alloc_failure_reason k w = Done (translated e) w' /\
    h = Some p /\ (p ∉ blocks w) /\ resources w !! res = None /\
    events_of (nif_new adbc alloc_failure_reason k) w
      = ([EvNative (new_call k (Some p)) code; EvFree p; EvReleaseResource res;
          EvErrorRead e] ++ release_events e) /\
    resources_of (translated e) = [] /\
    blocks w' = blocks w /\
    resources w' = <[res := mkNifRes k (Some p) 0]> (resources w).
Proof.
  intros Hin Hcode.
  pose proof (new_run k w) as Hrun. cbv zeta in Hrun.
  unfold events_of in Hin |- *. rewrite Hrun in Hin |- *.
  assert (Hp : fresh (blocks w) ∉ blocks w) by apply is_fresh.
  assert (Hres : resources w !! fresh (dom (resources w)) = None).
  { apply not_elem_of_dom. apply is_fresh. }
  assert (Hnew : forall h1 h2 : option ptr, new_call k h1 = new_call k h2 -> h1 = h2)
    by (intros h1 h2; destruct k; simpl; congruence).
  destruct (hd true (alloc_plan w)); cbn [final trace] in Hin;
    [|rewrite drop_all in Hin; destruct Hin].
  destruct (hd true (tl (alloc_plan w))); cbn [final trace] in Hin;
    [|rewrite drop_all in Hin; destruct Hin].
  destruct (adbc (new_call k (Some (fresh (blocks w)))) (native w)) as [[code' e] d].
  destruct (decide (code' ≠ ADBC_STATUS_OK)) as [Hne|Heq]; cbn [final trace] in Hin |- *;
    rewrite drop_app_length in Hin.
  - assert (code' = code /\ h = Some (fresh (blocks w))) as [-> ->].
    { apply in_app_or in Hin. destruct Hin as [Hin|Hin].
      - simpl in Hin. destruct Hin as [Hin|[Hin|[Hin|[Hin|[]]]]]; try discriminate Hin.
        injection Hin as Hc ->. apply Hnew in Hc. auto.
      - unfold release_events in Hin. destruct (release e); simpl in Hin;
          destruct Hin as [Hin|[]] || destruct Hin. discriminate Hin. }
    exists (fresh (dom (resources w))), (fresh (blocks w)), e. eexists.
    split; [reflexivity|]. rewrite drop_app_length. repeat split; auto.
  - simpl in Hin. destruct Hin as [Hin|[Hin|[]]]; try discriminate Hin.
    injection Hin as _ ->. contradict Hcode. apply dec_stable. exact Heq.
Qed.

(** C3: when the host grants the wrapper and the block and the native
    construction entry point answers with a failure, [new] of either kind
    runs: native call, free of the block just allocated, release of the
    wrapper just allocated, read of the error, its release; it returns the
    translated error, which refers to no wrapper; no block stays allocated
    and the new wrapper holds no reference any more. *)
Theorem C3_failed_new_unwinds k w code e d :
  hd true (alloc_plan w) = true ->
  hd true (tl (alloc_plan w)) = true ->
  adbc (new_call k (Some (fresh (blocks w)))) (native w) = (code, e, d) ->
  code ≠ ADBC_STATUS_OK ->
  let res := fresh (dom (resources w)) in
  let p := fresh (blocks w) in
  exists w',
    nif_new adbc alloc_failure_reason k w = Done (translated e) w' /\
    (p ∉ blocks w) /\ resources w !! res = None /\
    events_of (nif_new adbc alloc_failure_reason k) w
      = ([EvNative (new_call k (Some p)) code; EvFree p; EvReleaseResource res;
          EvErrorRead e] ++ release_events e) /\
    resources_of (translated e) = [] /\
    blocks w' = blocks w /\
    resources w' = <[res := mkNifRes k (Some p) 0]> (resources w).
Proof.
  intros H1 H2 Ha Hcode res p.
  pose proof (new_run k w) as Hrun. cbv zeta in Hrun.
  rewrite H1, H2, Ha in Hrun. rewrite decide_True in Hrun by exact Hcode.
  eexists. split; [exact Hrun|]. cbn [blocks resources].
  split; [apply is_fresh|].
  split; [apply not_elem_of_dom, is_fresh|].
  split; [|repeat split].
  apply events_of_extends. rewrite Hrun. reflexivity.
Qed.

(** A wrapper allocation the host refuses ends [new] at once: the error
    result of [allocate_resource] is returned, nothing is allocated and the
    native library is not called. *)
Lemma new_without_wrapper k w :
  hd true (alloc_plan w) = false ->
  exists w',
    nif_new adbc alloc_failure_reason k w = Done (nif_error alloc_failure_reason) w' /\
    resources w' = resources w /\ blocks w' = blocks w /\ trace w' = trace w.
Proof.
  intros Hplan. pose proof (new_run k w) as Hrun. cbv zeta in Hrun.
  rewrite Hplan in Hrun. rewrite Hrun. eexists. repeat split.
Qed.

(** The block allocation is not checked: when the host has a wrapper but no
    block for the native handle, [memset] writes through the null pointer. *)
Lemma new_without_block k w :
  hd true (alloc_plan w) = true -> hd true (tl (alloc_plan w)) = false ->
  exists w', nif_new adbc alloc_failure_reason k w = Crash NullDereference w'.
Proof.
  intros H1 H2. pose proof (new_run k w) as Hrun. cbv zeta in Hrun.
  rewrite H1, H2 in Hrun. rewrite Hrun. eexists. reflexivity.
Qed.

(** The wrapper a failed [new] released still holds the pointer it freed:
    the destructor, run on that wrapper, frees the block a second time. *)
Lemma failed_new_leaves_freed_pointer k w res p e w' :
  nif_new adbc alloc_failure_reason k w = Done (translated e) w' ->
  resources w' = <[res := mkNifRes k (Some p) 0]> (resources w) ->
  blocks w' = blocks w -> p ∉ blocks w ->
  destruct_resource res w' = Crash InvalidFree w'.
Proof.
  intros _ Hres Hblocks Hp. unfold destruct_resource.
  run_nif. rewrite Hres, lookup_insert_eq. run_nif.
  rewrite decide_False by (rewrite Hblocks; exact Hp). reflexivity.
Qed.

(** ** Frame *)

Lemma exchanged_unchanged c w : unchanged_by (exchanged adbc c w) w.
Proof.
  unfold exchanged, unchanged_by.
  destruct (adbc c (native w)) as [[code e] d].
  destruct (decide (code ≠ ADBC_STATUS_OK)); split; reflexivity.
Qed.

Lemma set_option_unchanged k t a1 a2 w :
  unchanged_by (nif_set_option adbc nif_get k t a1 a2 w) w.
Proof.
  destruct (get_resource k t w) as [error|res] eqn:Hg.
  { rewrite (set_option_rejects _ _ _ _ _ _ Hg). split; reflexivity. }
  destruct (nif_get a1) as [key|] eqn:H1;
    [|rewrite (set_option_malformed _ _ _ _ _ _ Hg) by auto; split; reflexivity].
  destruct (nif_get a2) as [value|] eqn:H2;
    [|rewrite (set_option_malformed _ _ _ _ _ _ Hg) by auto; split; reflexivity].
  destruct (get_resource_inr _ _ _ _ Hg) as (r & p & -> & Hr & Hk & Hv).
  rewrite (set_option_run _ _ _ _ _ _ _ _ _ Hr Hk Hv H1 H2).
  apply exchanged_unchanged.
Qed.

Lemma database_init_unchanged t w :
  unchanged_by (adbc_database_init adbc t w) w.
Proof.
  destruct (get_resource Database t w) as [error|res] eqn:Hg.
  { rewrite (database_init_rejects _ _ _ Hg). split; reflexivity. }
  destruct (get_resource_inr _ _ _ _ Hg) as (r & p & -> & Hr & Hk & Hv).
  rewrite (database_init_run _ _ _ _ Hr Hk Hv). apply exchanged_unchanged.
Qed.

Lemma connection_init_unchanged t t' w :
  unchanged_by (adbc_connection_init adbc t t' w) w.
Proof.
  destruct (get_resource Connection t w) as [error|res] eqn:Hg.
  { rewrite connection_init_rejects by eauto. split; reflexivity. }
  destruct (get_resource Database t' w) as [error|res'] eqn:Hg'.
  { rewrite connection_init_rejects by eauto. split; reflexivity. }
  destruct (get_resource_inr _ _ _ _ Hg) as (r & p & -> & Hr & Hk & Hv).
  destruct (get_resource_inr _ _ _ _ Hg') as (r' & q & -> & Hr' & Hk' & Hv').
  rewrite (connection_init_run _ _ _ _ _ _ _ Hr Hk Hv Hr' Hk' Hv').
  apply exchanged_unchanged.
Qed.

(** C6: [set_option] and [init], whether the native call succeeds or fails,
    leave every wrapper's pointer (and every block) as it was; so does
    [release] when the native release call fails: the handle stays live and
    non-null, and a further [release] reaches the native library again. *)
Theorem C6_handle_pointer_is_framed k w res p a1 a2 t :
  live w k res p ->
  unchanged_by (nif_set_option adbc nif_get k (Resource res) a1 a2 w) w /\
  unchanged_by (adbc_database_init adbc (Resource res) w) w /\
  unchanged_by (adbc_connection_init adbc (Resource res) t w) w /\
  unchanged_by (adbc_connection_init adbc t (Resource res) w) w /\
  ((adbc (release_call k (Some p)) (native w)).1.1 ≠ ADBC_STATUS_OK ->
   let w' := final (nif_release adbc k (Resource res) w) in
   unchanged_by (nif_release adbc k (Resource res) w) w /\
   live w' k res p /\
   exists code,
     hd_error (events_of (nif_release adbc k (Resource res)) w')
       = Some (EvNative (release_call k (Some p)) code)).
Proof.
  intros (r & Hr & Hk & Hv & Hp).
  split; [apply set_option_unchanged|].
  split; [apply database_init_unchanged|].
  split; [apply connection_init_unchanged|].
  split; [apply connection_init_unchanged|].
  intros Hfail w'. subst w'.
  rewrite (release_run k w res r p Hr Hk Hv).
  destruct (adbc (release_call k (Some p)) (native w)) as [[code e] d].
  simpl in Hfail. rewrite decide_True by exact Hfail. cbn [final].
  split; [split; reflexivity|].
  split; [exists r; cbn [resources blocks]; auto|].
  match goal with |- context [events_of _ ?w1] => set (w1' := w1) end.
  assert (Hr1 : resources w1' !! res = Some r) by exact Hr.
  unfold events_of. rewrite (release_run k w1' res r p Hr1 Hk Hv).
  destruct (adbc (release_call k (Some p)) (native w1')) as [[code1 e1] d1].
  exists code1.
  destruct (decide (code1 ≠ ADBC_STATUS_OK)); [|destruct (decide (p ∈ blocks w1'))];
    cbn [final trace]; rewrite drop_app_length; reflexivity.
Qed.

(** ** The native error is read, then released *)

Lemma exchanged_discipline c0 w c code :
  In (EvNative c code) (drop (length (trace w)) (trace (final (exchanged adbc c0 w)))) ->
  code ≠ ADBC_STATUS_OK ->
  error_discipline adbc (exchanged adbc c0 w) w c code.
Proof.
  unfold exchanged, error_discipline.
  destruct (adbc c0 (native w)) as [[code0 e] d] eqn:Hc.
  destruct (decide (code0 ≠ ADBC_STATUS_OK)); cbn [final trace returned];
    rewrite drop_app_length; intros Hin Hcode.
  - destruct Hin as [Hin|[Hin|Hin]]; try discriminate Hin.
    + injection Hin as <- <-. exists e, [EvNative c0 code0].
      rewrite Hc. repeat split; auto.
    + apply In_release_events in Hin. discriminate Hin.
  - destruct Hin as [Hin|[]]. injection Hin as _ <-.
    contradict Hcode. apply dec_stable. assumption.
Qed.

Lemma set_option_discipline k t a1 a2 w c code :
  In (EvNative c code) (events_of (nif_set_option adbc nif_get k t a1 a2) w) ->
  code ≠ ADBC_STATUS_OK ->
  error_discipline adbc (nif_set_option adbc nif_get k t a1 a2 w) w c code.
Proof.
  unfold events_of.
  destruct (get_resource k t w) as [error|res] eqn:Hg.
  { rewrite (set_option_rejects _ _ _ _ _ _ Hg). no_events. }
  destruct (nif_get a1) as [key|] eqn:H1;
    [|rewrite (set_option_malformed _ _ _ _ _ _ Hg) by auto; no_events].
  destruct (nif_get a2) as [value|] eqn:H2;
    [|rewrite (set_option_malformed _ _ _ _ _ _ Hg) by auto; no_events].
  destruct (get_resource_inr _ _ _ _ Hg) as (r & p & -> & Hr & Hk & Hv).
  rewrite (set_option_run _ _ _ _ _ _ _ _ _ Hr Hk Hv H1 H2).
  apply exchanged_discipline.
Qed.

Lemma database_init_discipline t w c code :
  In (EvNative c code) (events_of (adbc_database_init adbc t) w) ->
  code ≠ ADBC_STATUS_OK ->
  error_discipline adbc (adbc_database_init adbc t w) w c code.
Proof.
  unfold events_of.
  destruct (get_resource Database t w) as [error|res] eqn:Hg.
  { rewrite (database_init_rejects _ _ _ Hg). no_events. }
  destruct (get_resource_inr _ _ _ _ Hg) as (r & p & -> & Hr & Hk & Hv).
  rewrite (database_init_run _ _ _ _ Hr Hk Hv). apply exchanged_discipline.
Qed.

Lemma connection_init_discipline t t' w c code :
  In (EvNative c code) (events_of (adbc_connection_init adbc t t') w) ->
  code ≠ ADBC_STATUS_OK ->
  error_discipline adbc (adbc_connection_init adbc t t' w) w c code.
Proof.
  unfold events_of.
  destruct (get_resource Connection t w) as [error|res] eqn:Hg.
  { rewrite connection_init_rejects by eauto. no_events. }
  destruct (get_resource Database t' w) as [error|res'] eqn:Hg'.
  { rewrite connection_init_rejects by eauto. no_events. }
  destruct (get_resource_inr _ _ _ _ Hg) as (r & p & -> & Hr & Hk & Hv).
  destruct (get_resource_inr _ _ _ _ Hg') as (r' & q & -> & Hr' & Hk' & Hv').
  rewrite (connection_init_run _ _ _ _ _ _ _ Hr Hk Hv Hr' Hk' Hv').
  apply exchanged_discipline.
Qed.

Lemma release_discipline k t w c code :
  In (EvNative c code) (events_of (nif_release adbc k t) w) ->
  code ≠ ADBC_STATUS_OK ->
  error_discipline adbc (nif_release adbc k t w) w c code.
Proof.
  unfold events_of.
  destruct (get_resource k t w) as [error|res] eqn:Hg.
  { rewrite (release_rejects _ _ _ _ Hg). no_events. }
  destruct (get_resource_inr _ _ _ _ Hg) as (r & p & -> & Hr & Hk & Hv).
  rewrite (release_run k w res r p Hr Hk Hv). unfold error_discipline.
  destruct (adbc (release_call k (Some p)) (native w)) as [[code0 e] d] eqn:Hc.
  destruct (decide (code0 ≠ ADBC_STATUS_OK));
    [|destruct (decide (p ∈ blocks w))]; cbn [final trace returned];
    rewrite drop_app_length; intros Hin Hcode.
  - destruct Hin as [Hin|[Hin|Hin]]; try discriminate Hin.
    + injection Hin as <- <-. exists e, [EvNative (release_call k (Some p)) code0].
      rewrite Hc. repeat split; auto.
    + apply In_release_events in Hin. discriminate Hin.
  - destruct Hin as [Hin|[Hin|[]]]; try discriminate Hin. injection Hin as _ <-.
    contradict Hcode. apply dec_stable. assumption.
  - destruct Hin as [Hin|[]]. injection Hin as _ <-.
    contradict Hcode. apply dec_stable. assumption.
Qed.

Lemma new_discipline k w c code :
  In (EvNative c code) (events_of (nif_new adbc alloc_failure_reason k) w) ->
  code ≠ ADBC_STATUS_OK ->
  error_discipline adbc (nif_new adbc alloc_failure_reason k w) w c code.
Proof.
  unfold events_of, error_discipline.
  pose proof (new_run k w) as Hrun. cbv zeta in Hrun. rewrite Hrun.
  destruct (hd true (alloc_plan w)); cbn [final trace];
    [|rewrite drop_all; intros []].
  destruct (hd true (tl (alloc_plan w))); cbn [final trace];
    [|rewrite drop_all; intros []].
  destruct (adbc (new_call k (Some (fresh (blocks w)))) (native w))
    as [[code0 e] d] eqn:Hc.
  destruct (decide (code0 ≠ ADBC_STATUS_OK)); cbn [final trace returned];
    rewrite drop_app_length; intros Hin Hcode.
  - apply in_app_or in Hin. destruct Hin as [Hin|Hin].
    + destruct Hin as [Hin|[Hin|[Hin|[Hin|[]]]]]; try discriminate Hin.
      injection Hin as <- <-.
      exists e, [EvNative (new_call k (Some (fresh (blocks w)))) code0;
                 EvFree (fresh (blocks w));
                 EvReleaseResource (fresh (dom (resources w)))].
      rewrite Hc. repeat split; auto.
    + apply In_release_events in Hin. discriminate Hin.
  - destruct Hin as [Hin|[Hin|[]]]; try discriminate Hin. injection Hin as _ <-.
    contradict Hcode. apply dec_stable. assumption.
Qed.

(** Whichever exported function has a failed native call among its events,
    the events end with the read of that call's error and its release. *)
Lemma failed_call_is_read_then_released name arity f argv w c code :
  In (name, arity, f) (nif_functions adbc nif_get alloc_failure_reason) ->
  In (EvNative c code) (events_of (f argv) w) ->
  code ≠ ADBC_STATUS_OK ->
  exists e pre,
    (adbc c (native w)).1 = (code, e) /\
    returned (f argv w) = Some (translated e) /\
    Forall (fun ev => is_error_release ev = false) pre /\
    events_of (f argv) w
      = pre ++ EvErrorRead e ::
          match release e with
          | Some cb => [EvErrorRelease cb e]
          | None => []
          end.
Proof.
  intros Hf Hin Hcode. change (error_discipline adbc (f argv w) w c code).
  unfold nif_functions in Hf. simpl in Hf.
  repeat (destruct Hf as [Hf|Hf]; [injection Hf as _ _ <-|]); [..|destruct Hf].
  - apply (new_discipline Database); assumption.
  - apply (set_option_discipline Database); assumption.
  - apply database_init_discipline; assumption.
  - apply (release_discipline Database); assumption.
  - apply (new_discipline Connection); assumption.
  - apply (set_option_discipline Connection); assumption.
  - apply connection_init_discipline; assumption.
  - apply (release_discipline Connection); assumption.
Qed.

Lemma exchanged_failed c w code e d :
  adbc c (native w) = (code, e, d) -> code ≠ ADBC_STATUS_OK ->
  exchanged adbc c w
    = Done (translated e)
        (mkWorld (resources w) (blocks w) (alloc_plan w) d
           (trace w ++ EvNative c code :: EvErrorRead e :: release_events e)).
Proof.
  intros Ha Hcode. unfold exchanged. rewrite Ha.
  rewrite decide_True by exact Hcode. reflexivity.
Qed.

Lemma read_then_released_intro pre e (m : nif driver term) w w' :
  m w = Done (translated e) w' ->
  trace w' = trace w ++ pre ++ EvErrorRead e :: release_events e ->
  read_then_released pre e m w.
Proof.
  intros Hrun Htrace. split; [rewrite Hrun; reflexivity|].
  apply events_of_extends. rewrite Hrun. exact Htrace.
Qed.

(** C7: each of the eight exported functions, brought to its native call
    (allocations granted for [new]; wrappers resolved and texts decoded for
    the others) and answered with a failure, returns the translation of the
    error the library filled in; the events of the run are the native call
    (for [new], then the free and the wrapper's release), then the read of
    the error, then, when the error carries a release callback, exactly one
    call of it. *)
Theorem C7_error_released_once_after_read w code e d :
  code ≠ ADBC_STATUS_OK ->
  (forall k,
     hd true (alloc_plan w) = true -> hd true (tl (alloc_plan w)) = true ->
     adbc (new_call k (Some (fresh (blocks w)))) (native w) = (code, e, d) ->
     read_then_released
       [EvNative (new_call k (Some (fresh (blocks w)))) code;
        EvFree (fresh (blocks w));
        EvReleaseResource (fresh (dom (resources w)))]
       e (nif_new adbc alloc_failure_reason k) w) /\
  (forall k res r p a1 a2 key value,
     resources w !! res = Some r -> rtype r = k -> val r = Some p ->
     nif_get a1 = Some key -> nif_get a2 = Some value ->
     adbc (set_option_call k (Some p) key value) (native w) = (code, e, d) ->
     read_then_released
       [EvNative (set_option_call k (Some p) key value) code]
       e (nif_set_option adbc nif_get k (Resource res) a1 a2) w) /\
  (forall res r p,
     resources w !! res = Some r -> rtype r = Database -> val r = Some p ->
     adbc (DatabaseInit (Some p)) (native w) = (code, e, d) ->
     read_then_released
       [EvNative (DatabaseInit (Some p)) code]
       e (adbc_database_init adbc (Resource res)) w) /\
  (forall res r p res' r' q,
     resources w !! res = Some r -> rtype r = Connection -> val r = Some p ->
     resources w !! res' = Some r' -> rtype r' = Database -> val r' = Some q ->
     adbc (ConnectionInit (Some p) (Some q)) (native w) = (code, e, d) ->
     read_then_released
       [EvNative (ConnectionInit (Some p) (Some q)) code]
       e (adbc_connection_init adbc (Resource res) (Resource res')) w) /\
  (forall k res r p,
     resources w !! res = Some r -> rtype r = k -> val r = Some p ->
     adbc (release_call k (Some p)) (native w) = (code, e, d) ->
     read_then_released
       [EvNative (release_call k (Some p)) code]
       e (nif_release adbc k (Resource res)) w).
Proof.
  intros Hcode. split; [|split; [|split; [|split]]].
  - intros k H1 H2 Ha.
    pose proof (new_run k w) as Hrun. cbv zeta in Hrun.
    rewrite H1, H2, Ha in Hrun. rewrite decide_True in Hrun by exact Hcode.
    eapply read_then_released_intro; [exact Hrun|].
    reflexivity.
  - intros k res r p a1 a2 key value Hr Hk Hv H1 H2 Ha.
    eapply read_then_released_intro.
    + rewrite (set_option_run k w res r p a1 a2 key value Hr Hk Hv H1 H2).
      apply (exchanged_failed _ _ _ _ _ Ha Hcode).
    + reflexivity.
  - intros res r p Hr Hk Hv Ha.
    eapply read_then_released_intro.
    + rewrite (database_init_run w res r p Hr Hk Hv).
      apply (exchanged_failed _ _ _ _ _ Ha Hcode).
    + reflexivity.
  - intros res r p res' r' q Hr Hk Hv Hr' Hk' Hv' Ha.
    eapply read_then_released_intro.
    + rewrite (connection_init_run w res r p res' r' q Hr Hk Hv Hr' Hk' Hv').
      apply (exchanged_failed _ _ _ _ _ Ha Hcode).
    + reflexivity.
  - intros k res r p Hr Hk Hv Ha.
    eapply read_then_released_intro.
    + rewrite (release_run k w res r p Hr Hk Hv), Ha.
      rewrite decide_True by exact Hcode. reflexivity.
    + reflexivity.
Qed.

(** ** No null handle reaches the native library *)

Lemma exchanged_call c0 w c code :
  In (EvNative c code) (drop (length (trace w)) (trace (final (exchanged adbc c0 w)))) ->
  c = c0.
Proof.
  unfold exchanged. destruct (adbc c0 (native w)) as [[code0 e] d].
  destruct (decide (code0 ≠ ADBC_STATUS_OK)); cbn [final trace];
    rewrite drop_app_length; intros Hin.
  - destruct Hin as [Hin|[Hin|Hin]]; try discriminate Hin.
    + injection Hin as <- _. reflexivity.
    + apply In_release_events in Hin. discriminate Hin.
  - destruct Hin as [Hin|[]]. injection Hin as <- _. reflexivity.
Qed.

(** Whatever the arguments, a native call made by an exported function is
    given non-null handle pointers only. *)
Lemma native_handles_are_never_null name arity f argv w c code :
  In (name, arity, f) (nif_functions adbc nif_get alloc_failure_reason) ->
  In (EvNative c code) (events_of (f argv) w) ->
  ~ In None (handles_of c).
Proof.
  intros Hf. unfold nif_functions in Hf. simpl in Hf. unfold events_of.
  assert (Hnew : forall k, In (EvNative c code)
            (drop (length (trace w))
               (trace (final (nif_new adbc alloc_failure_reason k w)))) ->
            ~ In None (handles_of c)).
  { intros k. pose proof (new_run k w) as Hrun. cbv zeta in Hrun. rewrite Hrun.
    destruct (hd true (alloc_plan w)); [|no_events].
    destruct (hd true (tl (alloc_plan w))); [|no_events].
    destruct (adbc (new_call k (Some (fresh (blocks w)))) (native w)) as [[code0 e] d].
    destruct (decide (code0 ≠ ADBC_STATUS_OK)); cbn [final trace];
      rewrite drop_app_length; intros Hin.
    - apply in_app_or in Hin. destruct Hin as [Hin|Hin].
      + destruct Hin as [Hin|[Hin|[Hin|[Hin|[]]]]]; try discriminate Hin.
        injection Hin as <- _. destruct k; simpl; intros [H|[]]; discriminate H.
      + apply In_release_events in Hin. discriminate Hin.
    - destruct Hin as [Hin|[Hin|[]]]; try discriminate Hin.
      injection Hin as <- _. destruct k; simpl; intros [H|[]]; discriminate H. }
  assert (Hset : forall k t a1 a2, In (EvNative c code)
            (drop (length (trace w))
               (trace (final (nif_set_option adbc nif_get k t a1 a2 w)))) ->
            ~ In None (handles_of c)).
  { intros k t a1 a2.
    destruct (get_resource k t w) as [error|res] eqn:Hg.
    { rewrite (set_option_rejects _ _ _ _ _ _ Hg). no_events. }
    destruct (nif_get a1) as [key|] eqn:H1;
      [|rewrite (set_option_malformed _ _ _ _ _ _ Hg) by auto; no_events].
    destruct (nif_get a2) as [value|] eqn:H2;
      [|rewrite (set_option_malformed _ _ _ _ _ _ Hg) by auto; no_events].
    destruct (get_resource_inr _ _ _ _ Hg) as (r & p & -> & Hr & Hk & Hv).
    rewrite (set_option_run _ _ _ _ _ _ _ _ _ Hr Hk Hv H1 H2).
    intros Hin. apply exchanged_call in Hin. subst c.
    destruct k; simpl; intros [H|[]]; discriminate H. }
  assert (Hrel : forall k t, In (EvNative c code)
            (drop (length (trace w)) (trace (final (nif_release adbc k t w)))) ->
            ~ In None (handles_of c)).
  { intros k t.
    destruct (get_resource k t w) as [error|res] eqn:Hg.
    { rewrite (release_rejects _ _ _ _ Hg). no_events. }
    destruct (get_resource_inr _ _ _ _ Hg) as (r & p & -> & Hr & Hk & Hv).
    rewrite (release_run k w res r p Hr Hk Hv).
    destruct (adbc (release_call k (Some p)) (native w)) as [[code0 e] d].
    destruct (decide (code0 ≠ ADBC_STATUS_OK));
      [|destruct (decide (p ∈ blocks w))]; cbn [final trace];
      rewrite drop_app_length; intros Hin.
    - destruct Hin as [Hin|[Hin|Hin]]; try discriminate Hin.
      + injection Hin as <- _. destruct k; simpl; intros [H|[]]; discriminate H.
      + apply In_release_events in Hin. discriminate Hin.
    - destruct Hin as [Hin|[Hin|[]]]; try discriminate Hin.
      injection Hin as <- _. destruct k; simpl; intros [H|[]]; discriminate H.
    - destruct Hin as [Hin|[]].
      injection Hin as <- _. destruct k; simpl; intros [H|[]]; discriminate H. }
  repeat (destruct Hf as [Hf|Hf]; [injection Hf as _ _ <-|]); [..|destruct Hf].
  - apply (Hnew Database).
  - apply (Hset Database).
  - destruct (get_resource Database (arg argv 0) w) as [error|res] eqn:Hg.
    { rewrite (database_init_rejects _ _ _ Hg). no_events. }
    destruct (get_resource_inr _ _ _ _ Hg) as (r & p & -> & Hr & Hk & Hv).
    rewrite (database_init_run _ _ _ _ Hr Hk Hv).
    intros Hin. apply exchanged_call in Hin. subst c.
    simpl. intros [H|[]]. discriminate H.
  - apply (Hrel Database).
  - apply (Hnew Connection).
  - apply (Hset Connection).
  - destruct (get_resource Connection (arg argv 0) w) as [error|res] eqn:Hg.
    { rewrite connection_init_rejects by eauto. no_events. }
    destruct (get_resource Database (arg argv 1) w) as [error|res'] eqn:Hg'.
    { rewrite connection_init_rejects by eauto. no_events. }
    destruct (get_resource_inr _ _ _ _ Hg) as (r & p & -> & Hr & Hk & Hv).
    destruct (get_resource_inr _ _ _ _ Hg') as (r' & q & -> & Hr' & Hk' & Hv').
    rewrite (connection_init_run _ _ _ _ _ _ _ Hr Hk Hv Hr' Hk' Hv').
    intros Hin. apply exchanged_call in Hin. subst c.
    simpl. intros [H|[H|[]]]; discriminate H.
  - apply (Hrel Connection).
Qed.

(** ** Allocation *)

(** C9, at the failing input: the host grants the wrapper and refuses the
    block of the native handle; [new] of either kind does not return, it
    writes through the null pointer in [memset]. *)
Theorem C9_block_exhaustion_dereferences_null k w :
  alloc_plan w = [true; false] ->
  exists w',
    nif_new adbc alloc_failure_reason k w = Crash NullDereference w' /\
    returned (nif_new adbc alloc_failure_reason k w) = None.
Proof.
  intros Hplan.
  destruct (new_without_block k w) as [w' Hw']; [rewrite Hplan; reflexivity..|].
  exists w'. rewrite Hw'. split; reflexivity.
Qed.

End Properties.

(** ** Module load *)

(** C10: [on_load] returns 0 exactly when the host registers both resource
    types, and -1 otherwise; the library is loaded, with both types set, only
    in the first case. *)
Theorem C10_load_needs_both_types (enif_open_resource_type : string -> string -> option nat) :
  let database := enif_open_resource_type "Elixir.ADBC.Nif" "NifResAdbcDatabase" in
  let connection := enif_open_resource_type "Elixir.ADBC.Nif" "NifResAdbcConnection" in
  ((on_load enif_open_resource_type no_types).1 = 0
     <-> is_Some database /\ is_Some connection) /\
  ((on_load enif_open_resource_type no_types).1 = 0
     \/ (on_load enif_open_resource_type no_types).1 = -1) /\
  (database = None \/ connection = None <-> load_nif enif_open_resource_type = None) /\
  (forall types, load_nif enif_open_resource_type = Some types ->
     types = mkTypes database connection /\ is_Some database /\ is_Some connection).
Proof.
  intros database connection. unfold load_nif, on_load.
  fold database. fold connection.
  assert (Hnone : forall A, ~ is_Some (@None A)) by (intros A [? H]; discriminate H).
  destruct database as [d|], connection as [c|]; cbn;
    rewrite ?(decide_True (P := (0 = 0)%Z)) by reflexivity;
    rewrite ?(decide_False (P := (-1 = 0)%Z)) by discriminate;
    repeat split; intros;
    repeat match goal with
           | H : _ /\ _ |- _ => destruct H
           | H : _ \/ _ |- _ => destruct H
           | H : is_Some None |- _ => destruct (Hnone _ H)
           | H : Some _ = Some _ |- _ => injection H as <-
           end;
    try discriminate; try reflexivity; eauto.
Qed.

(** * Concrete runs *)

Lemma fresh_database_live script : live (fresh_database script) Database 0 0.
Proof.
  exists (mkNifRes Database (Some 0%nat) 1).
  split; [vm_compute; reflexivity|].
  split; [reflexivity|]. split; [reflexivity|].
  apply elem_of_elements. vm_compute. left.
Qed.

Lemma C2_bad_option_payload :
  returned (nif_error_from_adbc_error bad_option (boot [] []))
    = Some (Tuple [Atom "error"; Tuple [Binary "bad option"; Int 42; Binary "42000"]]).
Proof.
  exact (C2_error_payload _ "bad option" 42 "42000" (Some 7%nat) (boot [] []) eq_refl).
Defined.

Lemma C1_released_database_is_rejected :
  nif_set_option scripted binary_text Database (Resource 0)
    (Binary "uri") (Binary "mem://") released_database = Done Badarg released_database /\
  adbc_database_init scripted (Resource 0) released_database
    = Done Badarg released_database /\
  adbc_connection_init scripted (Resource 0) (Resource 1) released_database
    = Done Badarg released_database /\
  adbc_connection_init scripted (Resource 1) (Resource 0) released_database
    = Done Badarg released_database.
Proof.
  refine (proj1 (C1_null_handle_is_rejected _ scripted binary_text Database
                   released_database 0 (mkNifRes Database None 1)
                   (Binary "uri") (Binary "mem://") (Resource 1) _ _)).
  - vm_compute. reflexivity.
  - reflexivity.
Defined.

Lemma C3_failed_new_of_both_kinds :
  let w := boot [(1, bad_option)] [] in
  (exists w',
     nif_new scripted enomem Database w = Done (translated bad_option) w' /\
     (fresh (blocks w) ∉ blocks w) /\ resources w !! fresh (dom (resources w)) = None /\
     events_of (nif_new scripted enomem Database) w
       = ([EvNative (new_call Database (Some (fresh (blocks w)))) 1;
           EvFree (fresh (blocks w)); EvReleaseResource (fresh (dom (resources w)));
           EvErrorRead bad_option] ++ release_events bad_option) /\
     resources_of (translated bad_option) = [] /\
     blocks w' = blocks w /\
     resources w' = <[fresh (dom (resources w))
                        := mkNifRes Database (Some (fresh (blocks w))) 0]> (resources w)) /\
  (exists w',
     nif_new scripted enomem Connection w = Done (translated bad_option) w' /\
     (fresh (blocks w) ∉ blocks w) /\ resources w !! fresh (dom (resources w)) = None /\
     events_of (nif_new scripted enomem Connection) w
       = ([EvNative (new_call Connection (Some (fresh (blocks w)))) 1;
           EvFree (fresh (blocks w)); EvReleaseResource (fresh (dom (resources w)));
           EvErrorRead bad_option] ++ release_events bad_option) /\
     resources_of (translated bad_option) = [] /\
     blocks w' = blocks w /\
     resources w' = <[fresh (dom (resources w))
                        := mkNifRes Connection (Some (fresh (blocks w))) 0]> (resources w)).
Proof.
  intros w. split.
  - apply (C3_failed_new_unwinds _ scripted enomem Database w 1 bad_option []);
      [reflexivity | reflexivity | reflexivity | discriminate].
  - apply (C3_failed_new_unwinds _ scripted enomem Connection w 1 bad_option []);
      [reflexivity | reflexivity | reflexivity | discriminate].
Defined.

Lemma C4_fresh_database_released_twice :
  exists w1,
    nif_release scripted Database (Resource 0) (fresh_database []) = Done nif_ok w1 /\
    nif_release scripted Database (Resource 0) w1 = Done Badarg w1.
Proof.
  apply (C4_release_twice _ scripted Database (fresh_database []) 0 0).
  - apply fresh_database_live.
  - reflexivity.
Defined.

Lemma two_handles_live script :
  live (two_handles script) Database 0 0 /\ live (two_handles script) Connection 1 1.
Proof.
  split.
  - exists (mkNifRes Database (Some 0%nat) 1).
    split; [vm_compute; reflexivity|].
    split; [reflexivity|]. split; [reflexivity|].
    apply elem_of_elements. vm_compute. repeat constructor.
  - exists (mkNifRes Connection (Some 1%nat) 1).
    split; [vm_compute; reflexivity|].
    split; [reflexivity|]. split; [reflexivity|].
    apply elem_of_elements. vm_compute. repeat constructor.
Qed.

Lemma C5_release_of_both_kinds :
  let w := two_handles [] in
  (exists r w1,
     resources w !! 0%nat = Some r /\
     nif_release scripted Database (Resource 0) w = Done nif_ok w1 /\
     events_of (nif_release scripted Database (Resource 0)) w
       = [EvNative (release_call Database (Some 0%nat)) ADBC_STATUS_OK; EvFree 0] /\
     blocks w1 = blocks w ∖ {[0%nat]} /\ (0%nat ∉ blocks w1) /\
     resources w1 = <[0%nat := mkNifRes Database None (refc r)]> (resources w) /\
     destruct_resource 0 w1 = Done tt w1) /\
  (exists r w1,
     resources w !! 1%nat = Some r /\
     nif_release scripted Connection (Resource 1) w = Done nif_ok w1 /\
     events_of (nif_release scripted Connection (Resource 1)) w
       = [EvNative (release_call Connection (Some 1%nat)) ADBC_STATUS_OK; EvFree 1] /\
     blocks w1 = blocks w ∖ {[1%nat]} /\ (1%nat ∉ blocks w1) /\
     resources w1 = <[1%nat := mkNifRes Connection None (refc r)]> (resources w) /\
     destruct_resource 1 w1 = Done tt w1).
Proof.
  intros w. split.
  - apply (C5_release_nulls_the_handle _ scripted Database w 0 0
             ADBC_STATUS_OK no_error []);
      [apply two_handles_live | reflexivity | reflexivity].
  - apply (C5_release_nulls_the_handle _ scripted Connection w 1 1
             ADBC_STATUS_OK no_error []);
      [apply two_handles_live | reflexivity | reflexivity].
Defined.

Lemma C6_failed_release_keeps_the_handle :
  let w := fresh_database [(1, bad_option)] in
  let w' := final (nif_release scripted Database (Resource 0) w) in
  unchanged_by (nif_release scripted Database (Resource 0) w) w /\
  live w' Database 0 0 /\
  exists code,
    hd_error (events_of (nif_release scripted Database (Resource 0)) w')
      = Some (EvNative (release_call Database (Some 0%nat)) code).
Proof.
  intros w.
  refine (proj2 (proj2 (proj2 (proj2
    (C6_handle_pointer_is_framed _ scripted binary_text Database w 0 0
       (Binary "uri") (Binary "mem://") (Resource 1)
       (fresh_database_live _))))) _).
  vm_compute. discriminate.
Defined.

Lemma C7_each_failed_call_releases_once :
  let w0 := boot [(1, bad_option)] [] in
  let w := two_handles [(1, bad_option)] in
  let key := Binary "mode" in
  let value := Binary "bogus" in
  (read_then_released
     [EvNative (DatabaseNew (Some (fresh (blocks w0)))) 1; EvFree (fresh (blocks w0));
      EvReleaseResource (fresh (dom (resources w0)))]
     bad_option (adbc_database_new scripted enomem) w0 /\
   read_then_released
     [EvNative (ConnectionNew (Some (fresh (blocks w0)))) 1; EvFree (fresh (blocks w0));
      EvReleaseResource (fresh (dom (resources w0)))]
     bad_option (adbc_connection_new scripted enomem) w0) /\
  (read_then_released [EvNative (DatabaseSetOption (Some 0%nat) "mode" "bogus") 1]
     bad_option (adbc_database_set_option scripted binary_text (Resource 0) key value) w /\
   read_then_released [EvNative (ConnectionSetOption (Some 1%nat) "mode" "bogus") 1]
     bad_option (adbc_connection_set_option scripted binary_text (Resource 1) key value) w) /\
  read_then_released [EvNative (DatabaseInit (Some 0%nat)) 1]
    bad_option (adbc_database_init scripted (Resource 0)) w /\
  read_then_released [EvNative (ConnectionInit (Some 1%nat) (Some 0%nat)) 1]
    bad_option (adbc_connection_init scripted (Resource 1) (Resource 0)) w /\
  (read_then_released [EvNative (DatabaseRelease (Some 0%nat)) 1]
     bad_option (adbc_database_release scripted (Resource 0)) w /\
   read_then_released [EvNative (ConnectionRelease (Some 1%nat)) 1]
     bad_option (adbc_connection_release scripted (Resource 1)) w).
Proof.
  intros w0 w key value.
  assert (Hfail : (1 ≠ ADBC_STATUS_OK)%Z) by discriminate.
  destruct (C7_error_released_once_after_read _ scripted binary_text enomem
              w0 1 bad_option [] Hfail) as (Hnew & _).
  destruct (C7_error_released_once_after_read _ scripted binary_text enomem
              w 1 bad_option [] Hfail) as (_ & Hset & Hdb & Hconn & Hrel).
  assert (Hr0 : resources w !! 0%nat = Some (mkNifRes Database (Some 0%nat) 1))
    by (vm_compute; reflexivity).
  assert (Hr1 : resources w !! 1%nat = Some (mkNifRes Connection (Some 1%nat) 1))
    by (vm_compute; reflexivity).
  split; [split|split; [split|split; [|split; [|split]]]].
  - apply (Hnew Database); reflexivity.
  - apply (Hnew Connection); reflexivity.
  - apply (Hset Database 0%nat _ 0%nat key value "mode" "bogus" Hr0); reflexivity.
  - apply (Hset Connection 1%nat _ 1%nat key value "mode" "bogus" Hr1); reflexivity.
  - apply (Hdb 0%nat _ 0%nat Hr0); reflexivity.
  - apply (Hconn 1%nat _ 1%nat 0%nat _ 0%nat Hr1 eq_refl eq_refl Hr0); reflexivity.
  - apply (Hrel Database 0%nat _ 0%nat Hr0); reflexivity.
  - apply (Hrel Connection 1%nat _ 1%nat Hr1); reflexivity.
Defined.

Lemma C8_atom_key_is_badarg :
  nif_set_option scripted binary_text Database (Resource 0)
    (Atom "uri") (Binary "mem://") (fresh_database []) = Done Badarg (fresh_database []) /\
  events_of (nif_set_option scripted binary_text Database (Resource 0)
               (Atom "uri") (Binary "mem://")) (fresh_database []) = [].
Proof.
  apply (C8_malformed_text_is_badarg _ scripted binary_text Database (Resource 0)
           (Atom "uri") (Binary "mem://") (fresh_database [])).
  left. reflexivity.
Defined.

Lemma C9_database_new_without_block :
  exists w',
    nif_new scripted enomem Database (boot [] [true; false]) = Crash NullDereference w' /\
    returned (nif_new scripted enomem Database (boot [] [true; false])) = None.
Proof.
  apply (C9_block_exhaustion_dereferences_null _ scripted enomem Database
           (boot [] [true; false])).
  reflexivity.
Defined.

(** The spec's scenario: [new], two [set_option], [init] and [release] all
    succeed in sequence, and a further [release] of the same reference is
    the invalid-argument signal. *)
Example database_lifecycle :
  results_of
    [ adbc_database_new scripted enomem;
      adbc_database_set_option scripted binary_text
        (Resource 0) (Binary "username") (Binary "alice");
      adbc_database_set_option scripted binary_text
        (Resource 0) (Binary "uri") (Binary "mem://");
      adbc_database_init scripted (Resource 0);
      adbc_database_release scripted (Resource 0);
      adbc_database_release scripted (Resource 0) ]
    (boot [] [])
  = [ Some (Tuple [Atom "ok"; Resource 0]); Some (Atom "ok"); Some (Atom "ok");
      Some (Atom "ok"); Some (Atom "ok"); Some Badarg ].
Proof. vm_compute. reflexivity. Qed.

(** A connection is initialised against a database; against a released
    database, or with the two references swapped, it is not. *)
Example connection_lifecycle :
  results_of
    [ adbc_database_new scripted enomem;
      adbc_connection_new scripted enomem;
      adbc_connection_init scripted (Resource 1) (Resource 0);
      adbc_connection_init scripted (Resource 0) (Resource 1);
      adbc_database_release scripted (Resource 0);
      adbc_connection_init scripted (Resource 1) (Resource 0);
      adbc_connection_release scripted (Resource 1) ]
    (boot [] [])
  = [ Some (Tuple [Atom "ok"; Resource 0]); Some (Tuple [Atom "ok"; Resource 1]);
      Some (Atom "ok"); Some Badarg; Some (Atom "ok"); Some Badarg;
      Some (Atom "ok") ].
Proof. vm_compute. reflexivity. Qed.

(** A failed [set_option]: the translated error comes back and the error's
    callback runs once, after the read. *)
Example failed_set_option_trace :
  events_of
    (adbc_database_set_option scripted binary_text
       (Resource 0) (Binary "mode") (Binary "bogus"))
    (fresh_database [(1, bad_option)])
  = [ EvNative (DatabaseSetOption (Some 0%nat) "mode" "bogus") 1;
      EvErrorRead bad_option; EvErrorRelease 7 bad_option ].
Proof. vm_compute. reflexivity. Qed.

(** The host refuses the second resource type: the module does not load. *)
Example load_without_connection_type :
  load_nif (fun _ name => if String.eqb name "NifResAdbcDatabase" then Some 1%nat else None)
  = None.
Proof. reflexivity. Qed.

Example load_with_both_types :
  load_nif (fun _ name => if String.eqb name "NifResAdbcDatabase" then Some 1%nat else Some 2%nat)
  = Some (mkTypes (Some 1%nat) (Some 2%nat)).
Proof. reflexivity. Qed.

(** * Further properties of the exported functions *)

Section Coverage.

#[local] Set Default Proof Using "Type".

Variable driver : Type.
Variable adbc : native_call -> driver -> Z * AdbcError * driver.
Variable nif_get : term -> option string.
Variable alloc_failure_reason : term.

Implicit Types (w : world driver) (k : handle_kind) (res : nat) (e : AdbcError).

(** ** The four shapes of a run *)

(** Whatever its arguments, a run of an exported function is a refusal that
    leaves the world alone, one native exchange, the release of a resolved
    wrapper, or a [new]. *)
Lemma table_cases name arity f argv w :
  In (name, arity, f) (nif_functions adbc nif_get alloc_failure_reason) ->
  f argv w = Done Badarg w \/
  (exists c, f argv w = exchanged adbc c w) \/
  (exists k res r p,
     resources w !! res = Some r /\ rtype r = k /\ val r = Some p /\
     f argv w = nif_release adbc k (Resource res) w) \/
  (exists k, arity = 0%nat /\ f argv w = nif_new adbc alloc_failure_reason k w).
Proof.
  intros Hf. unfold nif_functions in Hf. simpl in Hf.
  assert (Hset : forall k t a1 a2,
            nif_set_option adbc nif_get k t a1 a2 w = Done Badarg w \/
            exists c, nif_set_option adbc nif_get k t a1 a2 w = exchanged adbc c w).
  { intros k t a1 a2.
    destruct (get_resource k t w) as [error|res] eqn:Hg.
    { left. erewrite set_option_rejects by exact Hg.
      apply get_resource_inl in Hg. subst. reflexivity. }
    assert (Hg0 := Hg).
    destruct (nif_get a1) as [key|] eqn:H1;
      [|left; eapply set_option_malformed; [exact Hg0|auto]].
    destruct (nif_get a2) as [value|] eqn:H2;
      [|left; eapply set_option_malformed; [exact Hg0|auto]].
    apply get_resource_inr in Hg as (r & p & -> & Hr & Hk & Hv).
    right. eexists. eapply set_option_run; eauto. }
  assert (Hrel : forall k t,
            nif_release adbc k t w = Done Badarg w \/
            exists res r p,
              resources w !! res = Some r /\ rtype r = k /\ val r = Some p /\
              t = Resource res).
  { intros k t.
    destruct (get_resource k t w) as [error|res] eqn:Hg.
    { left. erewrite release_rejects by exact Hg.
      apply get_resource_inl in Hg. subst. reflexivity. }
    apply get_resource_inr in Hg as (r & p & -> & Hr & Hk & Hv).
    right. eauto 10. }
  repeat (destruct Hf as [Hf|Hf]; [injection Hf as _ <- <-|]); [..|destruct Hf].
  - right. right. right. exists Database. split; reflexivity.
  - destruct (Hset Database (arg argv 0) (arg argv 1) (arg argv 2)); auto.
  - destruct (get_resource Database (arg argv 0) w) as [error|res] eqn:Hg.
    { left. erewrite database_init_rejects by exact Hg.
      apply get_resource_inl in Hg. subst. reflexivity. }
    apply get_resource_inr in Hg as (r & p & -> & Hr & Hk & Hv).
    right. left. eexists. eapply database_init_run; eauto.
  - destruct (Hrel Database (arg argv 0)) as [H|(res & r & p & Hr & Hk & Hv & Ht)];
      auto.
    right. right. left. exists Database, res, r, p. rewrite Ht. auto.
  - right. right. right. exists Connection. split; reflexivity.
  - destruct (Hset Connection (arg argv 0) (arg argv 1) (arg argv 2)); auto.
  - destruct (get_resource Connection (arg argv 0) w) as [error|res] eqn:Hg.
    { left. apply connection_init_rejects; eauto. }
    destruct (get_resource Database (arg argv 1) w) as [error|res'] eqn:Hg'.
    { left. apply connection_init_rejects; eauto. }
    apply get_resource_inr in Hg as (r & p & -> & Hr & Hk & Hv).
    apply get_resource_inr in Hg' as (r' & q & -> & Hr' & Hk' & Hv').
    right. left. eexists. eapply connection_init_run; eauto.
  - destruct (Hrel Connection (arg argv 0)) as [H|(res & r & p & Hr & Hk & Hv & Ht)];
      auto.
    right. right. left. exists Connection, res, r, p. rewrite Ht. auto.
Qed.

Lemma exchanged_runs c w :
  ~ In None (handles_of c) ->
  run_of adbc alloc_failure_reason w (exchanged adbc c w).
Proof.
  intros Hc. unfold exchanged.
  destruct (adbc c (native w)) as [[code e] d] eqn:Ha.
  destruct (decide (code ≠ ADBC_STATUS_OK)) as [Hne|Heq].
  - eapply run_failed; eauto.
  - eapply run_acknowledged; eauto. apply dec_stable. exact Heq.
Qed.

(** Every run of an exported function follows one of the rules. *)
Lemma table_runs name arity f argv w :
  In (name, arity, f) (nif_functions adbc nif_get alloc_failure_reason) ->
  run_of adbc alloc_failure_reason w (f argv w).
Proof.
  intros Hf.
  destruct (table_cases name arity f argv w Hf)
    as [H|[[c H]|[(k & res & r & p & Hr & Hk & Hv & H)|(k & _ & H)]]].
  - rewrite H. constructor.
  - pose proof (native_handles_are_never_null _ adbc nif_get alloc_failure_reason
                  name arity f argv w c) as Hnull.
    unfold events_of in Hnull. rewrite H in Hnull |- *.
    apply exchanged_runs.
    unfold exchanged in Hnull.
    destruct (adbc c (native w)) as [[code e] d].
    apply (Hnull code); [exact Hf|].
    destruct (decide (code ≠ ADBC_STATUS_OK)); cbn [final trace];
      rewrite drop_app_length; left; reflexivity.
  - rewrite H. erewrite release_run by eassumption.
    destruct (adbc (release_call k (Some p)) (native w)) as [[code e] d] eqn:Ha.
    assert (Hh : ~ In None (handles_of (release_call k (Some p))))
      by (destruct k; simpl; intros [Hx|[]]; discriminate Hx).
    destruct (decide (code ≠ ADBC_STATUS_OK)) as [Hne|Heq].
    { eapply run_failed; eauto. }
    apply dec_stable in Heq. rewrite Hk.
    destruct (decide (p ∈ blocks w)).
    + eapply run_released; eauto.
    + eapply run_release_of_freed; eauto.
  - rewrite H. pose proof (new_run _ adbc alloc_failure_reason k w) as Hrun.
    cbv zeta in Hrun. rewrite Hrun.
    destruct (hd true (alloc_plan w)) eqn:H1; [|apply run_new_without_wrapper; exact H1].
    destruct (hd true (tl (alloc_plan w))) eqn:H2; [|apply run_new_without_block; assumption].
    destruct (adbc (new_call k (Some (fresh (blocks w)))) (native w))
      as [[code e] d] eqn:Ha.
    destruct (decide (code ≠ ADBC_STATUS_OK)) as [Hne|Heq].
    + eapply run_new_failed; eauto.
    + eapply run_new_constructed; eauto. apply dec_stable. exact Heq.
Qed.

(** ** What a result says about the native call *)

Lemma release_events_quiet e :
  Forall (fun ev => is_native ev = false) (release_events e).
Proof.
  unfold release_events. destruct (release e); repeat constructor.
Qed.

(** X1: a function that returns the acknowledgement, alone or around a
    reference, made a native call that answered [ADBC_STATUS_OK]; that call
    is the first event of the run, no other native call follows, and the
    error struct is neither read nor released. *)
Theorem X1_success_is_native_success name arity f argv w t :
  In (name, arity, f) (nif_functions adbc nif_get alloc_failure_reason) ->
  returned (f argv w) = Some t ->
  t = nif_ok \/ (exists r, t = nif_ok_with r) ->
  exists c rest,
    (adbc c (native w)).1.1 = ADBC_STATUS_OK /\
    events_of (f argv) w = EvNative c ADBC_STATUS_OK :: rest /\
    Forall (fun ev => is_native ev = false /\ is_error_read ev = false /\
                      is_error_release ev = false) rest.
Proof.
  intros Hf Hret Hok. unfold events_of.
  assert (Hno : forall x, ~ (nif_error x = nif_ok \/ exists r, nif_error x = nif_ok_with r)).
  { intros x [H|[r' H]]; discriminate H. }
  destruct (table_runs name arity f argv w Hf)
    as [ | c code e0 d Ha Hcode Hh | c code e0 d Ha Hcode Hh
       | k res r p code e0 d Hr Hk Hv Hp Ha Hcode
       | k res r p code e0 d Hr Hk Hv Hp Ha Hcode
       | Hw | k Hw Hb | k code e0 d Hw Hb Ha Hcode | k code e0 d Hw Hb Ha Hcode ];
    cbn [returned final trace] in *; try discriminate Hret;
    injection Hret as <-; rewrite ?drop_app_length;
    try (exfalso; destruct Hok as [H'|[r' H']]; discriminate H');
    try (exfalso; eapply Hno; exact Hok); subst code.
  - exists c, []. rewrite Ha. repeat split; constructor.
  - exists (release_call k (Some p)), [EvFree p]. rewrite Ha.
    repeat split; repeat constructor.
  - exists (new_call k (Some (fresh (blocks w)))),
      [EvReleaseResource (fresh (dom (resources w)))]. rewrite Ha.
    repeat split; repeat constructor.
Qed.

(** X2: no function calls the native library more than once in a run. *)
Theorem X2_at_most_one_native_call name arity f argv w :
  In (name, arity, f) (nif_functions adbc nif_get alloc_failure_reason) ->
  (length (List.filter is_native (events_of (f argv) w)) <= 1)%nat.
Proof.
  intros Hf. unfold events_of.
  assert (Hq : forall e, List.filter is_native (release_events e) = []).
  { intros e. unfold release_events. destruct (release e); reflexivity. }
  destruct (table_runs name arity f argv w Hf)
    as [ | c code e0 d Ha Hcode Hh | c code e0 d Ha Hcode Hh
       | k res r p code e0 d Hr Hk Hv Hp Ha Hcode
       | k res r p code e0 d Hr Hk Hv Hp Ha Hcode
       | Hw | k Hw Hb | k code e0 d Hw Hb Ha Hcode | k code e0 d Hw Hb Ha Hcode ]; cbn [final trace];
    rewrite ?drop_app_length, ?drop_all; cbn [List.filter is_native app];
    rewrite ?List.filter_app, ?Hq; cbn [List.filter is_native app length]; lia.
Qed.

(** X3: a function that returns the invalid-argument signal has done
    nothing: the world, the native library's state and the trace included,
    is the one it started from. *)
Theorem X3_badarg_has_no_effect name arity f argv w :
  In (name, arity, f) (nif_functions adbc nif_get alloc_failure_reason) ->
  returned (f argv w) = Some Badarg ->
  f argv w = Done Badarg w.
Proof.
  intros Hf Hret.
  destruct (table_runs name arity f argv w Hf)
    as [ | c code e0 d Ha Hcode Hh | c code e0 d Ha Hcode Hh
       | k res r p code e0 d Hr Hk Hv Hp Ha Hcode
       | k res r p code e0 d Hr Hk Hv Hp Ha Hcode
       | Hw | k Hw Hb | k code e0 d Hw Hb Ha Hcode | k code e0 d Hw Hb Ha Hcode ]; cbn [returned] in Hret;
    try discriminate Hret.
  reflexivity.
Qed.

(** X4: the error struct is read only in a run whose native call failed:
    the run then starts with that call, and what is read is the error the
    call filled in. *)
Theorem X4_error_is_read_only_after_failure name arity f argv w e :
  In (name, arity, f) (nif_functions adbc nif_get alloc_failure_reason) ->
  In (EvErrorRead e) (events_of (f argv) w) ->
  exists c code,
    code ≠ ADBC_STATUS_OK /\
    (adbc c (native w)).1 = (code, e) /\
    hd_error (events_of (f argv) w) = Some (EvNative c code).
Proof.
  intros Hf. unfold events_of.
  assert (Hq : forall e', ~ In (EvErrorRead e) (release_events e')).
  { intros e' Hin. apply In_release_events in Hin. discriminate Hin. }
  destruct (table_runs name arity f argv w Hf)
    as [ | c code e0 d Ha Hcode Hh | c code e0 d Ha Hcode Hh
       | k res r p code e0 d Hr Hk Hv Hp Ha Hcode
       | k res r p code e0 d Hr Hk Hv Hp Ha Hcode
       | Hw | k Hw Hb | k code e0 d Hw Hb Ha Hcode | k code e0 d Hw Hb Ha Hcode ]; cbn [final trace];
    rewrite ?drop_app_length, ?drop_all; intros Hin.
  - destruct Hin.
  - destruct Hin as [Hin|[]]. discriminate Hin.
  - destruct Hin as [Hin|[Hin|Hin]]; [discriminate Hin| |destruct (Hq _ Hin)].
    injection Hin as <-. exists c, code. rewrite Ha. auto.
  - destruct Hin as [Hin|[Hin|[]]]; discriminate Hin.
  - destruct Hin as [Hin|[]]. discriminate Hin.
  - destruct Hin.
  - destruct Hin.
  - destruct Hin as [Hin|[Hin|[]]]; discriminate Hin.
  - apply in_app_or in Hin. destruct Hin as [Hin|Hin]; [|destruct (Hq _ Hin)].
    destruct Hin as [Hin|[Hin|[Hin|[Hin|[]]]]]; try discriminate Hin.
    injection Hin as <-.
    exists (new_call k (Some (fresh (blocks w)))), code. rewrite Ha. auto.
Qed.

(** ** The heap stays consistent *)

Lemma heap_consistent_same w w' :
  resources w' = resources w -> blocks w' = blocks w ->
  heap_consistent w -> heap_consistent w'.
Proof.
  unfold heap_consistent. intros -> ->. auto.
Qed.

Lemma run_keeps_heap_consistent w o :
  run_of adbc alloc_failure_reason w o ->
  heap_consistent w ->
  (forall k h code,
     In (EvNative (new_call k h) code) (drop (length (trace w)) (trace (final o))) ->
     code = ADBC_STATUS_OK) ->
  heap_consistent (final o).
Proof.
  intros Hrun [Hlive Hown] Hnew.
  assert (Hfresh : forall res r, resources w !! res = Some r ->
                                 val r ≠ Some (fresh (blocks w))).
  { intros res r Hr Hv. apply (is_fresh (blocks w)). eauto. }
  assert (Hnone : resources w !! fresh (dom (resources w)) = None).
  { apply not_elem_of_dom. apply is_fresh. }
  destruct Hrun
    as [ | c code e0 d Ha Hcode Hh | c code e0 d Ha Hcode Hh
       | k res r p code e0 d Hr Hk Hv Hp Ha Hcode
       | k res r p code e0 d Hr Hk Hv Hp Ha Hcode
       | Hw | k Hw Hb | k code e0 d Hw Hb Ha Hcode | k code e0 d Hw Hb Ha Hcode ];
    cbn [final trace] in *;
    try (apply (heap_consistent_same w); [reflexivity..|split; assumption]).
  - split; cbn [resources blocks].
    + intros res' r' q Hr' Hv'.
      destruct (decide (res = res')) as [<-|Hne].
      * rewrite lookup_insert_eq in Hr'. injection Hr' as <-. discriminate Hv'.
      * rewrite lookup_insert_ne in Hr' by exact Hne.
        apply elem_of_difference. split; [eauto|].
        rewrite elem_of_singleton. intros ->.
        apply Hne. eapply Hown; eauto.
    + intros res1 res2 r1 r2 q Hr1 Hr2 Hv1 Hv2.
      destruct (decide (res = res1)) as [<-|Hne1].
      { rewrite lookup_insert_eq in Hr1. injection Hr1 as <-. discriminate Hv1. }
      destruct (decide (res = res2)) as [<-|Hne2].
      { rewrite lookup_insert_eq in Hr2. injection Hr2 as <-. discriminate Hv2. }
      rewrite lookup_insert_ne in Hr1, Hr2 by assumption. eauto.
  - split; cbn [resources blocks].
    + intros res' r' q Hr' Hv'.
      destruct (decide (fresh (dom (resources w)) = res')) as [<-|Hne].
      * rewrite lookup_insert_eq in Hr'. injection Hr' as <-. discriminate Hv'.
      * rewrite lookup_insert_ne in Hr' by exact Hne. eauto.
    + intros res1 res2 r1 r2 q Hr1 Hr2 Hv1 Hv2.
      destruct (decide (fresh (dom (resources w)) = res1)) as [<-|Hne1].
      { rewrite lookup_insert_eq in Hr1. injection Hr1 as <-. discriminate Hv1. }
      destruct (decide (fresh (dom (resources w)) = res2)) as [<-|Hne2].
      { rewrite lookup_insert_eq in Hr2. injection Hr2 as <-. discriminate Hv2. }
      rewrite lookup_insert_ne in Hr1, Hr2 by assumption. eauto.
  - split; cbn [resources blocks].
    + intros res' r' q Hr' Hv'. apply elem_of_union.
      destruct (decide (fresh (dom (resources w)) = res')) as [<-|Hne].
      * rewrite lookup_insert_eq in Hr'. injection Hr' as <-.
        cbn [val] in Hv'. injection Hv' as <-.
        left. apply elem_of_singleton. reflexivity.
      * rewrite lookup_insert_ne in Hr' by exact Hne. right. eauto.
    + intros res1 res2 r1 r2 q Hr1 Hr2 Hv1 Hv2.
      destruct (decide (fresh (dom (resources w)) = res1)) as [<-|Hne1];
        destruct (decide (fresh (dom (resources w)) = res2)) as [<-|Hne2];
        rewrite ?lookup_insert_eq in Hr1; rewrite ?lookup_insert_eq in Hr2;
        rewrite ?lookup_insert_ne in Hr1 by assumption;
        rewrite ?lookup_insert_ne in Hr2 by assumption;
        try reflexivity.
      * injection Hr1 as <-. cbn [val] in Hv1. injection Hv1 as <-.
        destruct (Hfresh _ _ Hr2 Hv2).
      * injection Hr2 as <-. cbn [val] in Hv2. injection Hv2 as <-.
        destruct (Hfresh _ _ Hr1 Hv1).
      * eauto.
  - exfalso. apply Hcode. eapply Hnew.
    rewrite drop_app_length. apply in_or_app. left. left. reflexivity.
Qed.

(** X5: the exported functions keep the heap consistent (every non-null
    [val] points to a live block, no block is the handle of two wrappers),
    whatever their arguments and whether they return or not; the one
    exception is a [new] whose native construction call fails. *)
Theorem X5_heap_stays_consistent name arity f argv w :
  In (name, arity, f) (nif_functions adbc nif_get alloc_failure_reason) ->
  heap_consistent w ->
  (forall k h code,
     In (EvNative (new_call k h) code) (events_of (f argv) w) ->
     code = ADBC_STATUS_OK) ->
  heap_consistent (final (f argv w)).
Proof.
  intros Hf Hc Hnew.
  eapply run_keeps_heap_consistent; [eapply table_runs; exact Hf | exact Hc | exact Hnew].
Qed.

(** ** Construction and the whole life of a handle *)

Lemma new_constructed k w t w1 :
  nif_new adbc alloc_failure_reason k w = Done (nif_ok_with t) w1 ->
  let res := fresh (dom (resources w)) in
  let p := fresh (blocks w) in
  t = Resource res /\
  resources w1 = <[res := mkNifRes k (Some p) 1]> (resources w) /\
  blocks w1 = {[p]} ∪ blocks w /\
  trace w1 = trace w ++ [EvNative (new_call k (Some p)) ADBC_STATUS_OK;
                         EvReleaseResource res].
Proof.
  intros Hrun res p. pose proof (new_run _ adbc alloc_failure_reason k w) as Hnew.
  cbv zeta in Hnew. rewrite Hnew in Hrun. fold res in Hrun. fold p in Hrun.
  destruct (hd true (alloc_plan w)); [|discriminate Hrun].
  destruct (hd true (tl (alloc_plan w))); [|discriminate Hrun].
  destruct (adbc (new_call k (Some p)) (native w)) as [[code e] d].
  destruct (decide (code ≠ ADBC_STATUS_OK)) as [Hne|Heq]; [discriminate Hrun|].
  apply dec_stable in Heq. subst code.
  injection Hrun as <- <-. repeat split.
Qed.

(** X7: when [new] returns a reference, the reference is to a wrapper the
    host did not track before, of the kind asked for, holding one reference
    and a block that was not allocated before; the wrappers and blocks that
    were there are untouched, and the run is the construction call followed
    by the release of the allocation reference. *)
Theorem X7_new_returns_a_fresh_live_wrapper k w t w1 :
  nif_new adbc alloc_failure_reason k w = Done (nif_ok_with t) w1 ->
  exists res p,
    t = Resource res /\
    resources w !! res = None /\ (p ∉ blocks w) /\
    resources w1 !! res = Some (mkNifRes k (Some p) 1) /\
    live w1 k res p /\
    (forall res', res' ≠ res -> resources w1 !! res' = resources w !! res') /\
    (forall q, q ∈ blocks w1 <-> q = p \/ q ∈ blocks w) /\
    events_of (nif_new adbc alloc_failure_reason k) w
      = [EvNative (new_call k (Some p)) ADBC_STATUS_OK; EvReleaseResource res].
Proof.
  intros Hrun.
  destruct (new_constructed k w t w1 Hrun) as (Ht & Hres & Hblocks & Htrace).
  exists (fresh (dom (resources w))), (fresh (blocks w)).
  assert (Hin : fresh (blocks w) ∈ blocks w1).
  { rewrite Hblocks. apply elem_of_union. left. apply elem_of_singleton. reflexivity. }
  split; [exact Ht|].
  split; [apply not_elem_of_dom, is_fresh|].
  split; [apply is_fresh|].
  split; [rewrite Hres; apply lookup_insert_eq|].
  split.
  { eexists. split; [rewrite Hres; apply lookup_insert_eq|]. auto. }
  split; [intros res' Hne; rewrite Hres; apply lookup_insert_ne; auto|].
  split.
  { intros q. rewrite Hblocks, elem_of_union, elem_of_singleton. reflexivity. }
  apply events_of_extends. rewrite Hrun. exact Htrace.
Qed.

(** X8: when the host refuses the wrapper, [new] returns the error result
    of [allocate_resource] at once: no block is allocated, no wrapper is
    tracked, the native library is not called and keeps its state. *)
Theorem X8_new_without_wrapper_returns_the_error k w :
  hd true (alloc_plan w) = false ->
  exists w',
    nif_new adbc alloc_failure_reason k w
      = Done (nif_error alloc_failure_reason) w' /\
    resources w' = resources w /\ blocks w' = blocks w /\
    native w' = native w /\
    events_of (nif_new adbc alloc_failure_reason k) w = [].
Proof.
  intros Hplan. pose proof (new_run _ adbc alloc_failure_reason k w) as Hnew.
  cbv zeta in Hnew. rewrite Hplan in Hnew. unfold events_of. rewrite Hnew.
  eexists. repeat split. cbn [final trace]. apply drop_all.
Qed.

Lemma configure_unchanged k t options w :
  resources (configure adbc nif_get k t options w) = resources w /\
  blocks (configure adbc nif_get k t options w) = blocks w.
Proof.
  revert w. induction options as [|[key value] rest IH]; intros w; [split; reflexivity|].
  cbn [configure].
  destruct (IH (final (nif_set_option adbc nif_get k t key value w))) as [-> ->].
  apply set_option_unchanged.
Qed.

Lemma init_unchanged k t db w :
  unchanged_by (nif_init adbc k t db w) w.
Proof.
  destruct k; [apply database_init_unchanged | apply connection_init_unchanged].
Qed.

(** X9: a handle's whole life gives the block back.  After a [new] that
    returned a reference, any series of [set_option] calls on it and an
    [init], whatever they return, a [release] that returns the
    acknowledgement leaves exactly the blocks that were allocated before the
    [new], leaves every wrapper that was there as it was, and leaves the new
    wrapper with a null pointer. *)
Theorem X9_lifecycle_gives_the_block_back k t db options w w1 w3 :
  nif_new adbc alloc_failure_reason k w = Done (nif_ok_with t) w1 ->
  nif_release adbc k t
    (final (nif_init adbc k t db (configure adbc nif_get k t options w1)))
    = Done nif_ok w3 ->
  blocks w3 = blocks w /\
  (forall res r, resources w !! res = Some r -> resources w3 !! res = Some r) /\
  (exists res, t = Resource res /\ resources w !! res = None /\
               resources w3 !! res = Some (mkNifRes k None 1)).
Proof.
  intros Hnew Hrel.
  destruct (new_constructed k w t w1 Hnew) as (Ht & Hres & Hblocks & _).
  set (res := fresh (dom (resources w))) in *.
  set (p := fresh (blocks w)) in *.
  set (w2 := final (nif_init adbc k t db (configure adbc nif_get k t options w1))) in *.
  assert (Hframe : resources w2 = resources w1 /\ blocks w2 = blocks w1).
  { destruct (init_unchanged k t db (configure adbc nif_get k t options w1)) as [H1 H2].
    destruct (configure_unchanged k t options w1) as [H3 H4].
    subst w2. rewrite H1, H2, H3, H4. split; reflexivity. }
  destruct Hframe as [Hres2 Hblocks2].
  assert (Hr : resources w2 !! res = Some (mkNifRes k (Some p) 1))
    by (rewrite Hres2, Hres; apply lookup_insert_eq).
  assert (Hnone : resources w !! res = None) by apply not_elem_of_dom, is_fresh.
  assert (Hp : p ∉ blocks w) by apply is_fresh.
  subst t. erewrite release_run in Hrel by (exact Hr || reflexivity).
  destruct (adbc (release_call k (Some p)) (native w2)) as [[code e] d].
  destruct (decide (code ≠ ADBC_STATUS_OK)); [discriminate Hrel|].
  destruct (decide (p ∈ blocks w2)); [|discriminate Hrel].
  injection Hrel as <-. cbn [blocks resources rtype refc].
  split; [|split].
  - rewrite Hblocks2, Hblocks. apply set_eq. intros x.
    rewrite elem_of_difference, elem_of_union, elem_of_singleton.
    split; [intros [[Hx|Hx] Hne]; [contradiction | exact Hx]|].
    intros Hx. split; [auto|]. intros ->. auto.
  - intros res' r Hr'. rewrite lookup_insert_ne by (intros <-; congruence).
    rewrite Hres2, Hres. rewrite lookup_insert_ne by (intros <-; congruence).
    exact Hr'.
  - exists res. split; [reflexivity|]. split; [exact Hnone|]. apply lookup_insert_eq.
Qed.

(** ** The export table *)

Lemma arg_firstn (argv argv' : list term) (n i : nat) :
  firstn n argv = firstn n argv' -> (i < n)%nat -> arg argv i = arg argv' i.
Proof.
  intros Heq Hi. unfold arg.
  pose proof (List.nth_firstn n argv i Badarg) as H1.
  pose proof (List.nth_firstn n argv' i Badarg) as H2.
  apply Nat.ltb_lt in Hi. rewrite Hi in H1, H2.
  rewrite <- H1, <- H2, Heq. reflexivity.
Qed.

(** X10: each entry of the export table reads no argument beyond the arity
    it registers: two calls that agree on the first [arity] arguments are
    the same run. *)
Theorem X10_arity_covers_the_arguments_read name arity f argv argv' :
  In (name, arity, f) (nif_functions adbc nif_get alloc_failure_reason) ->
  firstn arity argv = firstn arity argv' ->
  f argv = f argv'.
Proof.
  intros Hf Heq. unfold nif_functions in Hf. simpl in Hf.
  repeat (destruct Hf as [Hf|Hf]; [injection Hf as _ <- <-|]); [..|destruct Hf];
    rewrite ?(arg_firstn argv argv' _ 0 Heq), ?(arg_firstn argv argv' _ 1 Heq),
      ?(arg_firstn argv argv' _ 2 Heq) by lia;
    reflexivity.
Qed.

(** ** Sequences of calls *)

Lemma run_extends_trace w o :
  run_of adbc alloc_failure_reason w o ->
  exists evs, trace (final o) = trace w ++ evs.
Proof.
  intros Hrun. destruct Hrun; cbn [final trace]; eauto.
  - exists []. symmetry. apply app_nil_r.
  - exists []. symmetry. apply app_nil_r.
  - exists []. symmetry. apply app_nil_r.
Qed.

Lemma world_after_extends_trace (calls : list (nif driver term)) w :
  (forall m, In m calls ->
     exists name arity f argv,
       In (name, arity, f) (nif_functions adbc nif_get alloc_failure_reason) /\
       m = f argv) ->
  exists evs, trace (world_after calls w) = trace w ++ evs.
Proof.
  revert w. induction calls as [|m rest IH]; intros w Hcalls; cbn [world_after].
  - exists []. symmetry. apply app_nil_r.
  - destruct (Hcalls m (or_introl eq_refl)) as (name & arity & f & argv & Hf & ->).
    destruct (run_extends_trace w _ (table_runs name arity f argv w Hf)) as [evs1 H1].
    destruct (IH (final (f argv w))) as [evs2 H2].
    { intros m' Hm'. apply Hcalls. right. exact Hm'. }
    exists (evs1 ++ evs2). rewrite H2, H1. symmetry. apply app_assoc.
Qed.

(** X11: over any sequence of calls of exported functions, with any
    arguments, a consistent heap stays consistent as long as no native
    construction call of the sequence failed. *)
Theorem X11_sessions_keep_the_heap_consistent (calls : list (nif driver term)) w :
  (forall m, In m calls ->
     exists name arity f argv,
       In (name, arity, f) (nif_functions adbc nif_get alloc_failure_reason) /\
       m = f argv) ->
  heap_consistent w ->
  (forall k h code,
     In (EvNative (new_call k h) code)
        (drop (length (trace w)) (trace (world_after calls w))) ->
     code = ADBC_STATUS_OK) ->
  heap_consistent (world_after calls w).
Proof.
  revert w. induction calls as [|m rest IH]; intros w Hcalls Hc Hnew;
    cbn [world_after] in *; [exact Hc|].
  destruct (Hcalls m (or_introl eq_refl)) as (name & arity & f & argv & Hf & ->).
  assert (Hrest : forall m', In m' rest ->
            exists name arity f argv,
              In (name, arity, f) (nif_functions adbc nif_get alloc_failure_reason) /\
              m' = f argv)
    by (intros m' Hm'; apply Hcalls; right; exact Hm').
  pose proof (table_runs name arity f argv w Hf) as Hrun.
  destruct (run_extends_trace w _ Hrun) as [evs1 H1].
  destruct (world_after_extends_trace rest (final (f argv w)) Hrest) as [evs2 H2].
  rewrite H2, H1, <- app_assoc, drop_app_length in Hnew.
  apply IH; [exact Hrest | |].
  - eapply run_keeps_heap_consistent; [exact Hrun | exact Hc |].
    intros k h code Hin. rewrite H1, drop_app_length in Hin.
    apply (Hnew k h). apply in_or_app. left. exact Hin.
  - intros k h code Hin. rewrite H2, drop_app_length in Hin.
    apply (Hnew k h). apply in_or_app. right. exact Hin.
Qed.

End Coverage.






(** ** Concrete runs of the further properties *)

Lemma boot_consistent script plan : heap_consistent (boot script plan).
Proof.
  split.
  - intros res r p Hr. unfold boot in Hr. cbn [resources] in Hr.
    rewrite lookup_empty in Hr. discriminate Hr.
  - intros res1 res2 r1 r2 p Hr. unfold boot in Hr. cbn [resources] in Hr.
    rewrite lookup_empty in Hr. discriminate Hr.
Qed.

Lemma fresh_database_consistent script : heap_consistent (fresh_database script).
Proof.
  unfold fresh_database.
  eapply (run_keeps_heap_consistent _ scripted enomem).
  - apply (table_runs _ scripted binary_text enomem "adbc_database_new" 0%nat
             (fun _ => adbc_database_new scripted enomem) []).
    left. reflexivity.
  - apply boot_consistent.
  - intros k h code Hin. vm_compute in Hin.
    destruct Hin as [Hin|[Hin|[]]]; [|discriminate Hin].
    injection Hin as _ <-. reflexivity.
Qed.

Lemma X1_set_option_acknowledged :
  let f := fun argv => adbc_database_set_option scripted binary_text
                         (arg argv 0) (arg argv 1) (arg argv 2) in
  let argv := [Resource 0; Binary "uri"; Binary "mem://"] in
  exists c rest,
    (scripted c (native (fresh_database []))).1.1 = ADBC_STATUS_OK /\
    events_of (f argv) (fresh_database []) = EvNative c ADBC_STATUS_OK :: rest /\
    Forall (fun ev => is_native ev = false /\ is_error_read ev = false /\
                      is_error_release ev = false) rest.
Proof.
  intros f argv.
  apply (X1_success_is_native_success _ scripted binary_text enomem
           "adbc_database_set_option" 3%nat f argv (fresh_database []) nif_ok).
  - right. left. reflexivity.
  - vm_compute. reflexivity.
  - left. reflexivity.
Defined.

Lemma X2_failed_release_calls_once :
  (length (List.filter is_native
     (events_of (adbc_database_release scripted (arg [Resource 0] 0))
        (fresh_database [(1%Z, bad_option)]))) <= 1)%nat.
Proof.
  apply (X2_at_most_one_native_call _ scripted binary_text enomem
           "adbc_database_release" 1%nat
           (fun argv => adbc_database_release scripted (arg argv 0))
           [Resource 0] (fresh_database [(1%Z, bad_option)])).
  do 3 right. left. reflexivity.
Defined.

Lemma X3_second_release_has_no_effect :
  adbc_database_release scripted (arg [Resource 0] 0) released_database
    = Done Badarg released_database.
Proof.
  apply (X3_badarg_has_no_effect _ scripted binary_text enomem
           "adbc_database_release" 1%nat
           (fun argv => adbc_database_release scripted (arg argv 0))
           [Resource 0] released_database).
  - do 3 right. left. reflexivity.
  - vm_compute. reflexivity.
Defined.

Lemma X4_bad_option_was_the_answer :
  let f := fun argv => adbc_database_set_option scripted binary_text
                         (arg argv 0) (arg argv 1) (arg argv 2) in
  let argv := [Resource 0; Binary "mode"; Binary "bogus"] in
  let w := fresh_database [(1, bad_option)] in
  exists c code,
    code ≠ ADBC_STATUS_OK /\
    (scripted c (native w)).1 = (code, bad_option) /\
    hd_error (events_of (f argv) w) = Some (EvNative c code).
Proof.
  intros f argv w.
  apply (X4_error_is_read_only_after_failure _ scripted binary_text enomem
           "adbc_database_set_option" 3%nat f argv w bad_option).
  - right. left. reflexivity.
  - vm_compute. right. left. reflexivity.
Defined.

Lemma X5_release_keeps_the_heap_consistent :
  heap_consistent
    (final (adbc_database_release scripted (arg [Resource 0] 0) (fresh_database []))).
Proof.
  apply (X5_heap_stays_consistent _ scripted binary_text enomem
           "adbc_database_release" 1%nat
           (fun argv => adbc_database_release scripted (arg argv 0))
           [Resource 0] (fresh_database [])).
  - do 3 right. left. reflexivity.
  - apply fresh_database_consistent.
  - intros k h code Hin. vm_compute in Hin.
    destruct Hin as [Hin|[Hin|[]]]; [|discriminate Hin].
    destruct k; discriminate Hin.
Defined.

Lemma X7_first_database :
  let w := boot [(ADBC_STATUS_OK, no_error)] [] in
  exists res p,
    Resource 0 = Resource res /\
    resources w !! res = None /\ (p ∉ blocks w) /\
    resources (fresh_database []) !! res = Some (mkNifRes Database (Some p) 1) /\
    live (fresh_database []) Database res p /\
    (forall res', res' ≠ res ->
       resources (fresh_database []) !! res' = resources w !! res') /\
    (forall q, q ∈ blocks (fresh_database []) <-> q = p \/ q ∈ blocks w) /\
    events_of (nif_new scripted enomem Database) w
      = [EvNative (new_call Database (Some p)) ADBC_STATUS_OK; EvReleaseResource res].
Proof.
  intros w.
  apply (X7_new_returns_a_fresh_live_wrapper _ scripted enomem Database w
           (Resource 0) (fresh_database [])).
  vm_compute. reflexivity.
Defined.

Lemma X8_refused_wrapper :
  exists w',
    nif_new scripted enomem Connection (boot [] [false]) = Done (nif_error enomem) w' /\
    resources w' = resources (boot [] [false]) /\
    blocks w' = blocks (boot [] [false]) /\
    native w' = native (boot [] [false]) /\
    events_of (nif_new scripted enomem Connection) (boot [] [false]) = [].
Proof.
  apply (X8_new_without_wrapper_returns_the_error _ scripted enomem Connection
           (boot [] [false])).
  reflexivity.
Defined.

Lemma X9_database_life :
  let options := [(Binary "username", Binary "alice"); (Binary "uri", Binary "mem://")] in
  let w := boot [] [] in
  let w1 := final (nif_new scripted enomem Database w) in
  let w3 := final (nif_release scripted Database (Resource 0)
                     (final (nif_init scripted Database (Resource 0) Badarg
                               (configure scripted binary_text Database (Resource 0)
                                  options w1)))) in
  blocks w3 = blocks w /\
  (forall res r, resources w !! res = Some r -> resources w3 !! res = Some r) /\
  (exists res, Resource 0 = Resource res /\ resources w !! res = None /\
               resources w3 !! res = Some (mkNifRes Database None 1)).
Proof.
  intros options w w1 w3.
  apply (X9_lifecycle_gives_the_block_back _ scripted binary_text enomem Database
           (Resource 0) Badarg options w w1 w3).
  - vm_compute. reflexivity.
  - vm_compute. reflexivity.
Defined.

Lemma X10_init_ignores_a_second_argument :
  (fun argv => adbc_database_init scripted (arg argv 0)) [Resource 0]
  = (fun argv => adbc_database_init scripted (arg argv 0)) [Resource 0; Atom "extra"].
Proof.
  apply (X10_arity_covers_the_arguments_read _ scripted binary_text enomem
           "adbc_database_init" 1%nat
           (fun argv => adbc_database_init scripted (arg argv 0))
           [Resource 0] [Resource 0; Atom "extra"]).
  - do 2 right. left. reflexivity.
  - reflexivity.
Defined.

Lemma X11_two_handles_session :
  heap_consistent
    (world_after
       [ adbc_database_new scripted enomem;
         adbc_connection_new scripted enomem;
         adbc_connection_init scripted (arg [Resource 1; Resource 0] 0)
           (arg [Resource 1; Resource 0] 1);
         adbc_database_release scripted (arg [Resource 0] 0) ]
       (boot [] [])).
Proof.
  apply (X11_sessions_keep_the_heap_consistent _ scripted binary_text enomem).
  - intros m [<-|[<-|[<-|[<-|[]]]]].
    + exists "adbc_database_new", 0%nat, (fun _ => adbc_database_new scripted enomem), [].
      split; [left; reflexivity | reflexivity].
    + exists "adbc_connection_new", 0%nat, (fun _ => adbc_connection_new scripted enomem), [].
      split; [do 4 right; left; reflexivity | reflexivity].
    + exists "adbc_connection_init", 2%nat,
        (fun argv => adbc_connection_init scripted (arg argv 0) (arg argv 1)),
        [Resource 1; Resource 0].
      split; [do 6 right; left; reflexivity | reflexivity].
    + exists "adbc_database_release", 1%nat,
        (fun argv => adbc_database_release scripted (arg argv 0)), [Resource 0].
      split; [do 3 right; left; reflexivity | reflexivity].
  - apply boot_consistent.
  - intros k h code Hin. vm_compute in Hin.
    repeat (destruct Hin as [Hin|Hin]; [try discriminate Hin|]); [..|destruct Hin].
    + injection Hin as _ <-. reflexivity.
    + injection Hin as _ <-. reflexivity.
    + destruct k; discriminate Hin.
    + destruct k; discriminate Hin.
Defined.
